(** * Session slots, wire framing and session tasks of the multiplayer server

    A shallow embedding of the worker-pool slot operations, the TCP receiver's
    framing loop, the fault-tolerant sender, the event processor and the
    HTTP start-up/login glue, together with the properties the specification
    states about them.

    Conventions.
    - Goroutines that sit in a [for { select { ... } }] loop are functions
      over a _script_: the list of select branches that become ready, in the
      order in which the loop takes them.  A loop returns the _trace_ of the
      observable operations it performs (channel sends, collaborator calls,
      socket writes) and an [Outcome].
    - A channel send is an entry of the trace; whether a partner is ready to
      receive it is outside the model.
    - Logging calls ([slog], [log.Println]) have no entry in the traces;
      [log.Fatal] ends the process and is the outcome [Fatal]. *)

From Stdlib Require Import ZArith NArith List Lia Strings.Byte Strings.String.
From stdpp Require Import base gmap strings list pretty.
Import ListNotations.

Local Open Scope Z_scope.

(** How a goroutine body ends on a given script. *)
Inductive Outcome :=
| Running    (* the script is exhausted, the loop is still waiting *)
| Returned   (* [return] *)
| Panicked   (* [panic(...)] or a run-time panic; deferred calls have run *)
| Fatal.     (* [log.Fatal]: the process exits, deferred calls do not run *)

(** Conversion to Go's [int32]: two's-complement wrap-around. *)
Definition int32 (z : Z) : Z := (z + 2^31) mod 2^32 - 2^31.

(** net.IP is a byte slice. *)
Definition IP := list byte.

(** ** Package protodef: the generated message types *)
Module protodef.

(** Package protodef is generated from the message declarations and is not
    part of the sources at hand; its types are modelled from the wire
    protocol of the specification and from the fields the sources read and
    write.  Message-typed fields are pointers in generated Go code, hence
    [option]: [None] is the nil pointer. *)

(** Modelled from the spec: message position{x,y}. *)
Record Position := { X : Z; Y : Z }.

(** Modelled from the spec: inbound type 0, Status {userId, position{x,y}}. *)
Record Status := { Id : string; CurrentPosition : option Position }.

(** Modelled from the spec: inbound type 1, Attack
    {userId, userPosition{x,y}, attackPosition{x,y}}. *)
Record Attack := {
  UserId : string;
  UserPosition : option Position;
  AttackPosition : option Position }.

(** Modelled from the spec: outbound cell{occupied,owner,kind}. *)
Record Cell := { Occupied : bool; Owner : string; Kind : Z }.

(** Modelled from the spec: one outbound (cell, position) pair. *)
Record RelatedPosition := {
  rp_Cell : option Cell;
  rp_Position : option Position }.

(** Modelled from the spec: the outbound message RelatedPositions
    {userPosition, list of (cell, position), scoreboard userId -> score}. *)
Record RelatedPositions := {
  rps_UserPosition : option Position;
  rps_RelatedPositions : list RelatedPosition;
  rps_Scoreboard : gmap string Z }.

End protodef.

(** ** Package game: events and collaborator data *)
Module game.

(** Package game (game_map in the event processor's file) is not part of
    the sources at hand, which build and read its records field by field. *)

(** Modelled from the spec: a position {x,y}. *)
Record Position := { X : Z; Y : Z }.

(** Modelled from the spec: the inbound event Status{userId, position}. *)
Record Status := { Id : string; CurrentPosition : Position }.

(** Modelled from the spec: the inbound event
    Attack{userId, attackerPosition, targetPosition}. *)
Record Attack := {
  UserId : string;
  UserPosition : Position;
  AttackPosition : Position }.

(** Modelled from the spec: a map cell {occupied, owner, kind}. *)
Record Cell := { Occupied : bool; Owner : string; Kind : Z }.

(** Modelled from the spec: a (cell, position) pair of the visible region. *)
Record RelatedPosition := { rp_Cell : Cell; rp_Position : Position }.

(** Modelled from the spec: what [UserStatuses.GetUserStatus] returns, the
    user's position and visibility modifier. *)
Record UserStatus := { us_Position : Position; ItemEffect : Z }.

End game.

(** An inbound event: what the receiver pushes on [game.StatusReceiver] or
    [game.AttackReceiver]. *)
Inductive InboundEvent :=
| EvStatus (s : game.Status)
| EvAttack (a : game.Attack).

(** ** The protobuf wire format of the inbound messages *)
Module proto.

(** [proto.Marshal] and [proto.Unmarshal] at the two inbound message types,
    in the Protocol Buffers wire format (proto3, fields numbered in the order
    the specification lists them: the user id is field 1, the positions
    follow; coordinates are int32 varints).  Neither the generated code nor
    the library is part of the sources at hand.  As in the Go
    implementation, a failing [Unmarshal] leaves the message filled with the
    fields read before the error.  Not modelled: groups (wire types 3 and 4
    are errors here) and the UTF-8 check of string fields. *)

(** Modelled from the spec: the byte with value [n] (0 above 255). *)
Definition byte_of_N (n : N) : byte :=
  match Byte.of_N n with
  | Some b => b
  | None => x00
  end.

(** Modelled from the spec: the base-128 varint of [v], least significant
    group first, in at most [fuel] bytes. *)
Fixpoint AppendVarint_from (fuel : nat) (v : N) : list byte :=
  match fuel with
  | O => []
  | S fuel' =>
      if (v <? 128)%N then [byte_of_N v]
      else byte_of_N (v mod 128 + 128) :: AppendVarint_from fuel' (v / 128)
  end.

(** Modelled from the spec: the varint of a uint64, at most ten bytes. *)
Definition AppendVarint (v : N) : list byte :=
  AppendVarint_from 10 (v mod 2 ^ 64)%N.

(** Modelled from the spec: reading a varint of at most [fuel] bytes;
    [None] is a parse error. *)
Fixpoint ConsumeVarint_from (fuel : nat) (shift : N) (b : list byte)
  : option (N * list byte) :=
  match fuel, b with
  | O, _ => None                       (* longer than ten bytes *)
  | _, [] => None                      (* truncated *)
  | S fuel', c :: b' =>
      let n := Byte.to_N c in
      if (n <? 128)%N then Some (n * 2 ^ shift, b')%N
      else
        match ConsumeVarint_from fuel' (shift + 7) b' with
        | Some (v, rest) => Some ((n - 128) * 2 ^ shift + v, rest)%N
        | None => None
        end
  end.

(** Modelled from the spec: reading the varint of a uint64. *)
Definition ConsumeVarint (b : list byte) : option (N * list byte) :=
  match ConsumeVarint_from 10 0 b with
  | Some (v, rest) => if (v <? 2 ^ 64)%N then Some (v, rest) else None
  | None => None
  end.

(** Modelled from the spec: an int32 travels sign-extended to 64 bits. *)
Definition uint64_of_int32 (x : Z) : N := Z.to_N (x mod 2 ^ 64).

(** Modelled from the spec: and is truncated to 32 bits on arrival. *)
Definition int32_of_uint64 (v : N) : Z := int32 (Z.of_N v).

(** Modelled from the spec: the value of a field, by wire type (0 varint,
    2 length-delimited, 1 and 5 fixed-width, which no field here uses). *)
Inductive FieldValue :=
| VarintV (v : N)
| BytesV (b : list byte)
| Fixed64V
| Fixed32V.

(** Modelled from the spec: reading one field: its number, its value and
    the rest of the input; [None] is a parse error. *)
Definition ConsumeField (b : list byte) : option (N * FieldValue * list byte) :=
  match ConsumeVarint b with
  | None => None
  | Some (tag, b1) =>
      let num := (tag / 8)%N in
      if (num =? 0)%N || (536870911 <? num)%N then None
      else
        match (tag mod 8)%N with
        | 0%N =>
            match ConsumeVarint b1 with
            | Some (v, b2) => Some (num, VarintV v, b2)
            | None => None
            end
        | 1%N =>
            if (8 <=? length b1)%nat then Some (num, Fixed64V, drop 8 b1)
            else None
        | 2%N =>
            match ConsumeVarint b1 with
            | Some (len, b2) =>
                if (len <=? N.of_nat (length b2))%N
                then Some (num, BytesV (take (N.to_nat len) b2),
                           drop (N.to_nat len) b2)
                else None
            | None => None
            end
        | 5%N =>
            if (4 <=? length b1)%nat then Some (num, Fixed32V, drop 4 b1)
            else None
        | _ => None
        end
  end.

(** Modelled from the spec: [len(l) == 0]. *)
Definition is_nil {A} (l : list A) : bool :=
  match l with [] => true | _ => false end.

(** *** Position *)

(** Modelled from the spec: the encoding of a position; proto3 leaves
    out fields that are 0. *)
Definition MarshalPosition (p : protodef.Position) : list byte :=
  (if protodef.X p =? 0 then []
   else x08 :: AppendVarint (uint64_of_int32 (protodef.X p)))
  ++ (if protodef.Y p =? 0 then []
      else x10 :: AppendVarint (uint64_of_int32 (protodef.Y p))).

(** Modelled from the spec: merging the fields of [b] into the position
    [m]; the flag tells a parse error.  Unknown fields are skipped. *)
Fixpoint UnmarshalPosition_from (fuel : nat) (b : list byte)
         (m : protodef.Position) : protodef.Position * bool :=
  match b, fuel with
  | [], _ => (m, false)
  | _, O => (m, true)
  | _, S fuel' =>
      match ConsumeField b with
      | None => (m, true)
      | Some (1%N, VarintV v, rest) =>
          UnmarshalPosition_from fuel' rest
            {| protodef.X := int32_of_uint64 v; protodef.Y := protodef.Y m |}
      | Some (2%N, VarintV v, rest) =>
          UnmarshalPosition_from fuel' rest
            {| protodef.X := protodef.X m; protodef.Y := int32_of_uint64 v |}
      | Some (_, _, rest) => UnmarshalPosition_from fuel' rest m
      end
  end.

(** Modelled from the spec: a freshly allocated position. *)
Definition zeroPosition : protodef.Position :=
  {| protodef.X := 0; protodef.Y := 0 |}.

(** Modelled from the spec: decoding a position field: the bytes are
    merged into the position already there, or into a fresh one. *)
Definition mergePosition (old : option protodef.Position) (b : list byte)
  : protodef.Position * bool :=
  UnmarshalPosition_from (length b) b
    (match old with Some p => p | None => zeroPosition end).

(** Modelled from the spec: a string field under the one-byte tag [num];
    the empty string is left out. *)
Definition MarshalString (num : byte) (s : string) : list byte :=
  if is_nil (String.list_byte_of_string s) then []
  else num :: AppendVarint (N.of_nat (length (String.list_byte_of_string s)))
           ++ String.list_byte_of_string s.

(** Modelled from the spec: a position field under the one-byte tag
    [num]; a nil pointer is left out, an all-zero position is not. *)
Definition MarshalSubmessage (num : byte) (p : option protodef.Position)
  : list byte :=
  match p with
  | None => []
  | Some p =>
      num :: AppendVarint (N.of_nat (length (MarshalPosition p)))
          ++ MarshalPosition p
  end.

(** *** Status *)

(** Modelled from the spec: [proto.Marshal] of a Status. *)
Definition MarshalStatus (m : protodef.Status) : list byte :=
  MarshalString x0a (protodef.Id m)
  ++ MarshalSubmessage x12 (protodef.CurrentPosition m).

(** Modelled from the spec: merging the fields of [b] into the Status
    [m]. *)
Fixpoint UnmarshalStatus_from (fuel : nat) (b : list byte)
         (m : protodef.Status) : protodef.Status * bool :=
  match b, fuel with
  | [], _ => (m, false)
  | _, O => (m, true)
  | _, S fuel' =>
      match ConsumeField b with
      | None => (m, true)
      | Some (1%N, BytesV s, rest) =>
          UnmarshalStatus_from fuel' rest
            {| protodef.Id := String.string_of_list_byte s;
               protodef.CurrentPosition := protodef.CurrentPosition m |}
      | Some (2%N, BytesV s, rest) =>
          let '(p, e) := mergePosition (protodef.CurrentPosition m) s in
          let m' := {| protodef.Id := protodef.Id m;
                       protodef.CurrentPosition := Some p |} in
          if e then (m', true) else UnmarshalStatus_from fuel' rest m'
      | Some (_, _, rest) => UnmarshalStatus_from fuel' rest m
      end
  end.

(** Modelled from the spec: [proto.Unmarshal(b, new(protodef.Status))]:
    the message left behind and whether an error is returned. *)
Definition UnmarshalStatus (b : list byte) : protodef.Status * bool :=
  UnmarshalStatus_from (length b) b
    {| protodef.Id := ""; protodef.CurrentPosition := None |}.

(** *** Attack *)

(** Modelled from the spec: [proto.Marshal] of an Attack. *)
Definition MarshalAttack (m : protodef.Attack) : list byte :=
  MarshalString x0a (protodef.UserId m)
  ++ MarshalSubmessage x12 (protodef.UserPosition m)
  ++ MarshalSubmessage x1a (protodef.AttackPosition m).

(** Modelled from the spec: merging the fields of [b] into the Attack
    [m]. *)
Fixpoint UnmarshalAttack_from (fuel : nat) (b : list byte)
         (m : protodef.Attack) : protodef.Attack * bool :=
  match b, fuel with
  | [], _ => (m, false)
  | _, O => (m, true)
  | _, S fuel' =>
      match ConsumeField b with
      | None => (m, true)
      | Some (1%N, BytesV s, rest) =>
          UnmarshalAttack_from fuel' rest
            {| protodef.UserId := String.string_of_list_byte s;
               protodef.UserPosition := protodef.UserPosition m;
               protodef.AttackPosition := protodef.AttackPosition m |}
      | Some (2%N, BytesV s, rest) =>
          let '(p, e) := mergePosition (protodef.UserPosition m) s in
          let m' := {| protodef.UserId := protodef.UserId m;
                       protodef.UserPosition := Some p;
                       protodef.AttackPosition := protodef.AttackPosition m |} in
          if e then (m', true) else UnmarshalAttack_from fuel' rest m'
      | Some (3%N, BytesV s, rest) =>
          let '(p, e) := mergePosition (protodef.AttackPosition m) s in
          let m' := {| protodef.UserId := protodef.UserId m;
                       protodef.UserPosition := protodef.UserPosition m;
                       protodef.AttackPosition := Some p |} in
          if e then (m', true) else UnmarshalAttack_from fuel' rest m'
      | Some (_, _, rest) => UnmarshalAttack_from fuel' rest m
      end
  end.

(** Modelled from the spec: [proto.Unmarshal(b, new(protodef.Attack))]. *)
Definition UnmarshalAttack (b : list byte) : protodef.Attack * bool :=
  UnmarshalAttack_from (length b) b
    {| protodef.UserId := ""; protodef.UserPosition := None;
       protodef.AttackPosition := None |}.

End proto.

(** ** Package worker_status *)
Module worker_status.

(** Modelled from the spec: the slot states (the constants of package
    worker_status are not part of the sources at hand; the error text of
    [SetClientInformation] calls the first one IDLE). *)
Inductive WorkerStatus :=
| IDLE
| PULLED_OUT
| CLIENT_INFORMATION_RECEIVED
| WORKING
| TERMINATED.

(** [==] on slot states. *)
Definition eqb (a b : WorkerStatus) : bool :=
  match a, b with
  | IDLE, IDLE | PULLED_OUT, PULLED_OUT
  | CLIENT_INFORMATION_RECEIVED, CLIENT_INFORMATION_RECEIVED
  | WORKING, WORKING | TERMINATED, TERMINATED => true
  | _, _ => false
  end.

End worker_status.

(** ** Package worker_pool *)
Module worker_pool.
Import worker_status.

(** The constants of the wire protocol. *)
Definition BUFFER_SIZE : nat := 4096.
Definition BUFFER_DELIMITER : byte := x24.   (* '$' *)
Definition PACKET_TYPE_STATUS : byte := x00.
Definition PACKET_TYPE_ATTACK : byte := x01.

(** *** The sender: [CollectToSendUserRelatedDataToClient] *)

(** What one broadcast tick finds: the collaborators' answers and whether
    [proto.Marshal] and [conn.Write] fail. *)
Record Tick := {
  tick_userStatus : option game.UserStatus;      (* userStatuses.GetUserStatus(clientId) *)
  tick_related : list game.RelatedPosition;      (* gameMap.GetRelatedPositions(...) *)
  tick_board : gmap string Z;                    (* scoreboard.GetCopiedBoard() *)
  tick_marshal_err : bool;
  tick_write_err : bool }.

(** The select branch the sender takes. *)
Inductive SendReady :=
| SDone                (* <-mutualTerminationContext.Done() *)
| SStop                (* <-stopClientSendSignal *)
| SForceExit           (* <-w.ForceExitSignal *)
| STick (t : Tick).    (* <-broadcastUpdateChannel *)

(** The observable operations of the sender. *)
Inductive SendEffect :=
| ConnWrite (msg : protodef.RelatedPositions) (failed : bool)
    (* conn.Write(snappy.Encode(nil, append(marshal(msg), '$'))) *)
| GameMapRemoveUser (clientId : string)
| UserStatusesRemoveUser (clientId : string)
| ScoreboardRemoveUser (clientId : string)
| SenderTermination.   (* sendMutualTerminationSignal() *)

(** One element of [protoRelatedPositions]. *)
Definition protoRelatedPosition (r : game.RelatedPosition) : protodef.RelatedPosition :=
  {| protodef.rp_Cell := Some
       {| protodef.Occupied := game.Occupied (game.rp_Cell r);
          protodef.Owner := game.Owner (game.rp_Cell r);
          protodef.Kind := int32 (game.Kind (game.rp_Cell r)) |};
     protodef.rp_Position := Some
       {| protodef.X := game.X (game.rp_Position r);
          protodef.Y := game.Y (game.rp_Position r) |} |}.

(** The snapshot message of one tick. *)
Definition protoUserRelatedPositions (us : game.UserStatus) (t : Tick)
  : protodef.RelatedPositions :=
  {| protodef.rps_UserPosition := Some
       {| protodef.X := game.X (game.us_Position us);
          protodef.Y := game.Y (game.us_Position us) |};
     protodef.rps_RelatedPositions := map protoRelatedPosition (tick_related t);
     protodef.rps_Scoreboard := tick_board t |}.

(** The [for { select { ... } }] loop of the sender. *)
Fixpoint sender_loop (clientId : string) (script : list SendReady)
         (faultTolerance : Z) : list SendEffect * Outcome :=
  match script with
  | [] => ([], Running)
  | SDone :: _ => ([], Returned)
  | SStop :: _ => ([], Returned)
  | SForceExit :: _ => ([], Returned)
  | STick t :: script' =>
      match tick_userStatus t with
      | None => sender_loop clientId script' faultTolerance
      | Some us =>
          if tick_marshal_err t then ([], Fatal)
          else
            let msg := protoUserRelatedPositions us t in
            if tick_write_err t then
              let faultTolerance := faultTolerance - 1 in
              if faultTolerance <=? 0 then
                ([ConnWrite msg true;
                  GameMapRemoveUser clientId;
                  UserStatusesRemoveUser clientId;
                  ScoreboardRemoveUser clientId], Panicked)
              else
                let '(tr, o) := sender_loop clientId script' faultTolerance in
                (ConnWrite msg true :: tr, o)
            else
              let '(tr, o) := sender_loop clientId script' faultTolerance in
              (ConnWrite msg false :: tr, o)
      end
  end.

(** The environment of one run of the send routine. *)
Record SendEnv := {
  resolve_err : bool;            (* net.ResolveTCPAddr fails *)
  dial_err : bool;               (* d.Dial fails *)
  send_script : list SendReady }.

(** [defer sendMutualTerminationSignal()]: runs on return and on panic. *)
Definition sender_deferred (r : list SendEffect * Outcome) : list SendEffect * Outcome :=
  match snd r with
  | Returned | Panicked => (fst r ++ [SenderTermination], snd r)
  | Running | Fatal => r
  end.

(** The closure returned by [CollectToSendUserRelatedDataToClient]. *)
Definition CollectToSendUserRelatedDataToClient
           (clientId : string) (clientIP : option IP) (clientPort : Z)
           (env : SendEnv) : list SendEffect * Outcome :=
  sender_deferred
    match clientIP with
    | None => ([], Panicked)              (* clientIP.String() on a nil pointer *)
    | Some _ =>
        if resolve_err env then ([], Fatal)
        else if dial_err env then ([], Panicked)
        else sender_loop clientId (send_script env) 100
    end.

(** The type of the slot's [SendUserRelatedDataToClient] field: the closure
    above, still waiting for its arguments. *)
Definition SendRoutine : Type :=
  string -> option IP -> Z -> SendEnv -> list SendEffect * Outcome.

(** *** The slot *)

(** Modelled from the spec: the [Worker] struct, whose declaration is not
    part of the sources at hand; the fields are those the methods use.  The
    channels [ForceExitSignal], [HealthChecker] and [StopClientSendSignal]
    appear through the sends and receives on them. *)
Record Worker := {
  Port : Z;
  status : WorkerStatus;
  OwnerUserID : string;
  ClientIP : option IP;
  ClientPort : Z;
  SendUserRelatedDataToClient : option SendRoutine }.

(** What the slot methods do besides changing the slot. *)
Inductive SlotEffect :=
| ForceExit                 (* w.ForceExitSignal <- game.Signal *)
| GoSend (run : SendEnv -> list SendEffect * Outcome).
    (* go w.SendUserRelatedDataToClient(w.OwnerUserID, w.ClientIP,
                                        w.ClientPort, w.StopClientSendSignal) *)

(** The two [errors.New] values of the slot methods. *)
Inductive InvalidStateError :=
| NotPulledOut              (* INVALID STATUS CHANGE: WORKER STATUS NOT IDLE *)
| NotClientInformationReceived
| NoSendRoutine.            (* worker does not have mandatory property *)

(** [GetStatus] and [ChangeStatus]: the read-write lock around [status] has
    no counterpart here. *)
Definition GetStatus (w : Worker) : WorkerStatus := status w.

(** [w.status = WorkerStatus(status)] *)
Definition ChangeStatus (w : Worker) (s : WorkerStatus) : Worker :=
  {| Port := Port w; status := s; OwnerUserID := OwnerUserID w;
     ClientIP := ClientIP w; ClientPort := ClientPort w;
     SendUserRelatedDataToClient := SendUserRelatedDataToClient w |}.

(** The result of a slot method: the slot afterwards, what it emitted, and
    the returned [error] ([None] is nil). *)
Record SlotResult := {
  slot : Worker;
  emitted : list SlotEffect;
  err : option InvalidStateError }.

(** [func (w *Worker) SetClientInformation(userId, clientIP, clientPort) error] *)
Definition SetClientInformation (w : Worker) (userId : string)
           (clientIP : option IP) (clientPort : Z) : SlotResult :=
  if negb (worker_status.eqb (GetStatus w) PULLED_OUT) then
    {| slot := w; emitted := [ForceExit]; err := Some NotPulledOut |}
  else
    let w := ChangeStatus w CLIENT_INFORMATION_RECEIVED in
    {| slot := {| Port := Port w; status := status w;
                  OwnerUserID := userId;
                  ClientIP := clientIP;
                  ClientPort := clientPort;
                  SendUserRelatedDataToClient := SendUserRelatedDataToClient w |};
       emitted := [];
       err := None |}.

(** [func (w *Worker) StartSendUserRelatedDataToClient() error] *)
Definition StartSendUserRelatedDataToClient (w : Worker) : SlotResult :=
  if negb (worker_status.eqb (GetStatus w) CLIENT_INFORMATION_RECEIVED) then
    {| slot := w; emitted := [ForceExit];
       err := Some NotClientInformationReceived |}
  else
    match SendUserRelatedDataToClient w with
    | None => {| slot := w; emitted := [ForceExit]; err := Some NoSendRoutine |}
    | Some routine =>
        let w := ChangeStatus w WORKING in
        {| slot := w;
           emitted := [GoSend (routine (OwnerUserID w) (ClientIP w) (ClientPort w))];
           err := None |}
    end.

(** *** The receiver: [ReceiveDataFromClient] *)

(** [errors.Is(err, io.EOF)] or not. *)
Inductive ReadError :=
| EOF
| OtherReadError.

(** The result of one [conn.Read(buffer)]: the bytes placed in
    [buffer[:size]] and the error.  [Read] never returns more than
    [len(buffer) = BUFFER_SIZE] bytes. *)
Record ReadResult := {
  rd_data : list byte;
  rd_err : option ReadError }.

(** The select branch the receiver takes.  [RDefault] is the [default]
    branch, taken when no channel is ready, with what the read returns. *)
Inductive RecvReady :=
| RDone                        (* <-mutualTerminationContext.Done() *)
| RForceExit                   (* <-w.ForceExitSignal *)
| RHealth                      (* <-w.HealthChecker *)
| RDefault (r : ReadResult).

(** The observable operations of the receiver. *)
Inductive RecvEffect :=
| InitDone                     (* initWorker.Done() *)
| Termination                  (* sendMutualTerminationSignal() *)
| HealthEcho                   (* w.HealthChecker <- game.Signal *)
| Push (e : InboundEvent)      (* game.StatusReceiver <- / game.AttackReceiver <- *)
| ExtendDeadline               (* conn.SetReadDeadline(now + READ_DEADLINE) *)
| ConnClose                    (* conn.Close() *)
| ListenerClose.               (* tcpListener.Close() *)

(** How the inner [for] loop over the accumulation buffer ends. *)
Inductive LoopEnd :=
| Break (queueBuffer : list byte)   (* left by [break]; the buffer afterwards *)
| LoopPanic.                        (* a run-time panic inside the loop *)

(** [bytes.Buffer.ReadBytes(delim)]: the bytes up to and including the
    first [delim], and the buffer left; when there is no [delim] the whole
    buffer is returned with [io.EOF] (the flag) and nothing is left. *)
Fixpoint ReadBytes (delim : byte) (buf : list byte)
  : list byte * list byte * bool :=
  match buf with
  | [] => ([], [], true)
  | b :: buf' =>
      if Byte.eqb b delim then ([b], buf', false)
      else
        let '(data, rest, eof) := ReadBytes delim buf' in
        (b :: data, rest, eof)
  end.

(** The slice expression [s[lo:hi]]; [None] is the run-time panic for
    bounds out of range. *)
Definition slice {A} (s : list A) (lo hi : nat) : option (list A) :=
  if (lo <=? hi)%nat && (hi <=? length s)%nat
  then Some (take (hi - lo) (drop lo s))
  else None.

(** [data[1:len(data)-1]] *)
Definition payload (data : list byte) : option (list byte) :=
  match data with
  | [] => None
  | _ => slice data 1 (length data - 1)
  end.

(** The composite literal [game.Position{X: p.X, Y: p.Y}]. *)
Definition gamePosition (p : protodef.Position) : game.Position :=
  {| game.X := protodef.X p; game.Y := protodef.Y p |}.

(** The composite literal [&game.Status{...}]; [None] is the nil-pointer
    dereference of [protoStatus.CurrentPosition.X]. *)
Definition gameStatus (m : protodef.Status) : option game.Status :=
  match protodef.CurrentPosition m with
  | None => None
  | Some p => Some {| game.Id := protodef.Id m;
                      game.CurrentPosition := gamePosition p |}
  end.

(** The composite literal [&game.Attack{...}]; [None] is the nil-pointer
    dereference of [protoAttack.UserPosition] or [protoAttack.AttackPosition]. *)
Definition gameAttack (m : protodef.Attack) : option game.Attack :=
  match protodef.UserPosition m, protodef.AttackPosition m with
  | Some u, Some a => Some {| game.UserId := protodef.UserId m;
                              game.UserPosition := gamePosition u;
                              game.AttackPosition := gamePosition a |}
  | _, _ => None
  end.

Section Receiver.

(** [proto.Unmarshal] at the two message types: the message it leaves
    and whether it returned an error. *)
Variable UnmarshalStatus : list byte -> protodef.Status * bool.
Variable UnmarshalAttack : list byte -> protodef.Attack * bool.

(** The [switch data[0]] on one frame: the trace of the chosen case, and
    whether a run-time panic cut it short. *)
Definition decode_frame (data : list byte) : list RecvEffect * bool :=
  match data with
  | [] => ([], true)                      (* data[0] out of range *)
  | tag :: _ =>
      if Byte.eqb tag PACKET_TYPE_STATUS then
        match payload data with
        | None => ([], true)
        | Some b =>
            let '(protoStatus, failed) := UnmarshalStatus b in
            let signalled := if failed then [Termination] else [] in
            match gameStatus protoStatus with
            | None => (signalled, true)
            | Some s => (signalled ++ [Push (EvStatus s)], false)
            end
        end
      else if Byte.eqb tag PACKET_TYPE_ATTACK then
        match payload data with
        | None => ([], true)
        | Some b =>
            let '(protoAttack, failed) := UnmarshalAttack b in
            let signalled := if failed then [Termination] else [] in
            match gameAttack protoAttack with
            | None => (signalled, true)
            | Some a => (signalled ++ [Push (EvAttack a)], false)
            end
        end
      else ([], false)
  end.

(** The inner [for] loop: frames are taken off the accumulation buffer
    until [ReadBytes] reports [io.EOF]; the unfinished tail is written
    back.  Every round takes at least the delimiter off the buffer, so
    [S (length queueBuffer)] rounds are always enough. *)
Fixpoint decode_loop (fuel : nat) (queueBuffer : list byte)
  : option (list RecvEffect * LoopEnd) :=
  match fuel with
  | O => None
  | S fuel' =>
      let '(data, rest, eof) := ReadBytes BUFFER_DELIMITER queueBuffer in
      if eof then Some ([], Break (rest ++ data))
      else
        let '(tr, panicked) := decode_frame data in
        if panicked then Some (tr, LoopPanic)
        else
          match decode_loop fuel' rest with
          | Some (tr', e) => Some (tr ++ tr', e)
          | None => None
          end
  end.

(** The inner loop with the rounds it needs. *)
Definition decode_all (queueBuffer : list byte) : list RecvEffect * LoopEnd :=
  match decode_loop (S (length queueBuffer)) queueBuffer with
  | Some r => r
  | None => ([], Break queueBuffer)
  end.

(** Tells a call of [sendMutualTerminationSignal]. *)
Definition is_termination (e : RecvEffect) : bool :=
  match e with
  | Termination => true
  | _ => false
  end.

(** The outer [for { select { ... } }] loop.  [sendMutualTerminationSignal]
    is a parameter of the Go function; following the specification's
    Termination Coordinator, calling it cancels the session's context.
    [cancelled] tells that this has happened, so that the context's [Done]
    channel is ready: [select] then never takes [default]. *)
Fixpoint receiver_loop (script : list RecvReady) (queueBuffer : list byte)
         (cancelled : bool) : list RecvEffect * Outcome :=
  match script with
  | [] => ([], Running)
  | RDone :: _ => ([], Returned)
  | RForceExit :: _ => ([], Returned)
  | RHealth :: script' =>
      let '(tr, o) := receiver_loop script' queueBuffer cancelled in
      (HealthEcho :: tr, o)
  | RDefault r :: script' =>
      if cancelled then ([], Returned)
      else
        match rd_err r with
        | Some EOF => receiver_loop script' queueBuffer cancelled
        | read_err =>
            let size := length (rd_data r) in
            let on_error :=
              match read_err with Some _ => [Termination] | None => [] end in
            let on_size :=
              if (BUFFER_SIZE <=? size)%nat then [Termination] else [] in
            if (0 <? size)%nat then
              match decode_all (queueBuffer ++ rd_data r) with
              | (tr, LoopPanic) => (on_error ++ on_size ++ tr, Panicked)
              | (tr, Break queueBuffer') =>
                  let now := on_error ++ on_size ++ tr ++ [ExtendDeadline] in
                  let '(tr', o) :=
                    receiver_loop script' queueBuffer'
                                  (existsb is_termination now) in
                  (now ++ tr', o)
              end
            else
              let now := on_error ++ on_size in
              let '(tr', o) :=
                receiver_loop script' queueBuffer
                              (existsb is_termination now) in
              (now ++ tr', o)
        end
  end.

(** The environment of one run of the receiver. *)
Record RecvEnv := {
  accept_err : bool;          (* tcpListener.AcceptTCP fails *)
  deadline_err : bool;        (* conn.SetReadDeadline fails *)
  keepalive_err : bool;       (* conn.SetKeepAlive fails *)
  recv_script : list RecvReady }.

(** The deferred calls run last-registered first: [conn.Close()],
    [sendMutualTerminationSignal()], [tcpListener.Close()]. *)
Definition receiver_deferred (r : list RecvEffect * Outcome)
  : list RecvEffect * Outcome :=
  match snd r with
  | Returned | Panicked =>
      (fst r ++ [ConnClose; Termination; ListenerClose], snd r)
  | Running | Fatal => r
  end.

(** [func (w *Worker) ReceiveDataFromClient(...)]: a failing accept or
    socket option is a [log.Fatal]; otherwise the loop runs on an empty
    accumulation buffer. *)
Definition ReceiveDataFromClient (env : RecvEnv) : list RecvEffect * Outcome :=
  if accept_err env || deadline_err env || keepalive_err env
  then ([InitDone], Fatal)
  else
    let '(tr, o) :=
      receiver_deferred (receiver_loop (recv_script env) [] false) in
    (InitDone :: tr, o).

End Receiver.

End worker_pool.

(** ** Package task: the event processor *)
Module task.
Import worker_status worker_pool.

(** [ProcessIncoming] is from a revision of the repository in which the
    slot's status is a public field, the health and termination channels
    carry booleans and the game state lives in package game_map; the slot
    and event records of the other packages are used for it here. *)

(** The select branch the processor takes.  A receive on [statusReceiver]
    yields a pointer, which is nil once the channel is closed. *)
Inductive ProcReady :=
| PStatus (status : option protodef.Status)   (* status := <-statusReceiver *)
| PForceExit                                  (* <-worker.ForceExitSignal *)
| PHealth                                     (* <-worker.HealthChecker *)
| PTermination.                               (* <-mutualTerminationSignal *)

(** The observable operations of the processor. *)
Inductive ProcEffect :=
| ProcInitDone                                (* initWorker.Done() *)
| UpdateUserPosition (safeStatus : game.Status)
    (* game_map.GameMap.UpdateUserPosition(&safeStatus) *)
| ProcHealthEcho                              (* worker.HealthChecker <- true *)
| ProcSendTermination.
    (* sendMutualTerminationSignal(mutualTerminationSignal) *)

(** The composite literal [game_map.Status{...}]; [None] is a nil-pointer
    dereference, of [status] or of [status.CurrentPosition]. *)
Definition safeStatus (status : option protodef.Status) : option game.Status :=
  match status with
  | None => None
  | Some m => gameStatus m
  end.

(** The [for { select { ... } }] loop: the trace, the slot afterwards and
    how the loop ends. *)
Fixpoint process_loop (script : list ProcReady) (worker : Worker)
  : list ProcEffect * Worker * Outcome :=
  match script with
  | [] => ([], worker, Running)
  | PStatus status :: script' =>
      match safeStatus status with
      | None => ([], worker, Panicked)
      | Some s =>
          let '(tr, w, o) := process_loop script' worker in
          (UpdateUserPosition s :: tr, w, o)
      end
  | PForceExit :: _ => ([], worker, Panicked)
      (* panic("forced exit occurred by signal") *)
  | PHealth :: script' =>
      let '(tr, w, o) := process_loop script' worker in
      (ProcHealthEcho :: tr, w, o)
  | PTermination :: _ => ([], ChangeStatus worker TERMINATED, Returned)
  end.

(** [defer sendMutualTerminationSignal(mutualTerminationSignal)] runs on
    return and on panic. *)
Definition ProcessIncoming (worker : Worker) (script : list ProcReady)
  : list ProcEffect * Worker * Outcome :=
  let '(tr, w, o) := process_loop script worker in
  match o with
  | Returned | Panicked => (ProcInitDone :: tr ++ [ProcSendTermination], w, o)
  | Running | Fatal => (ProcInitDone :: tr, w, o)
  end.

End task.

(** ** Package server: start-up and the login handler *)
Module server.
Import worker_status worker_pool.

(** What [NewServer] does, in order. *)
Inductive StartupEffect :=
| LaunchWorkers (count : Z)              (* task.LaunchWorkers(WORKER_COUNT) *)
| GoHealthCheckAndRevive (interval : Z)  (* go task.HealthCheckAndRevive(10) *)
| MakeMap (size : Z)                     (* MAP_SIZE rows of MAP_SIZE GROUND cells *)
| InitializeCoins
| InitializeItems
| GoMoveCoinsRandomly
| MakeUserStatuses
| MakeScoreboard
| HandleFunc (pattern : string).         (* server.HandleFunc(pattern, ...) *)

(** How [NewServer] ends: with a panic, or with the mux it returns (the
    patterns registered on it). *)
Inductive Startup :=
| StartupPanic
| Serving (patterns : list string).

(** The patterns of the three handlers. *)
Definition routes : list string :=
  ["GET /get-worker-port/{userId}/{clientPort}";
   "PATCH /disconnect/{userId}";
   "GET /server-state"].

Section Startup.

(** The configuration constants and the pool that [task.LaunchWorkers]
    leaves behind: declared in packages outside the sources at hand. *)
Variable WORKER_COUNT : Z.
Variable MAP_SIZE : Z.
Variable WorkerPool : Type.
Variable GetWorkerPoolAfterLaunch : Z -> WorkerPool.
Variable GetAvailableWorkerCount : WorkerPool -> Z.

(** [func NewServer() *http.ServeMux] *)
Definition NewServer : list StartupEffect * Startup :=
  let workerPool := GetWorkerPoolAfterLaunch WORKER_COUNT in
  if negb (GetAvailableWorkerCount workerPool =? WORKER_COUNT) then
    ([LaunchWorkers WORKER_COUNT], StartupPanic)
  else
    ([LaunchWorkers WORKER_COUNT;
      GoHealthCheckAndRevive 10;
      MakeMap MAP_SIZE;
      InitializeCoins;
      InitializeItems;
      GoMoveCoinsRandomly;
      MakeUserStatuses;
      MakeScoreboard]
       ++ map HandleFunc routes,
     Serving routes).

End Startup.

(** What the login handler reads from the request: the [userId] path
    value, the result of [strconv.Atoi] on the [clientPort] path value and
    the result of [net.ParseIP] on the host part of [RemoteAddr] ([None]
    is the error, respectively nil). *)
Record LoginRequest := {
  userId : string;
  clientPort : option Z;
  clientIP : option IP }.

(** What the handler writes: [w.WriteHeader(code)] and
    [io.WriteString(w, body)]. *)
Record Response := {
  code : Z;
  body : string }.

(** The status codes of [net/http]. *)
Definition StatusOK : Z := 200.
Definition StatusBadRequest : Z := 400.
Definition StatusConflict : Z := 409.

(** What the handler leaves behind: the response, the slot it worked on,
    what the slot methods emitted, and the scoreboard. *)
Record LoginResult := {
  response : Response;
  worker : option Worker;
  signals : list SlotEffect;
  Scoreboard : gmap string Z }.

(** Handler of GET /get-worker-port/{userId}/{clientPort}.  [pulled] is
    what [workerPool.Pull()] returns when the request gets that far
    ([None] is its error). *)
Definition get_worker_port (req : LoginRequest) (pulled : option Worker)
           (scoreboard : gmap string Z) : LoginResult :=
  match clientIP req, clientPort req, String.eqb (userId req) "" with
  | Some ip, Some port, false =>
      match pulled with
      | None =>
          {| response := {| code := StatusConflict;
                            body := "worker currently not available" |};
             worker := None; signals := []; Scoreboard := scoreboard |}
      | Some w =>
          let r1 := SetClientInformation w (userId req) (Some ip) port in
          let resp := {| code := StatusOK; body := pretty (Port (slot r1)) |} in
          let r2 := StartSendUserRelatedDataToClient (slot r1) in
          {| response := resp;
             worker := Some (slot r2);
             signals := emitted r1 ++ emitted r2;
             Scoreboard := <[userId req := 0]> scoreboard |}
      end
  | _, _, _ =>
      {| response := {| code := StatusBadRequest;
                        body := "client information invalid" |};
         worker := None; signals := []; Scoreboard := scoreboard |}
  end.

(** The further status code of [net/http] the disconnect handler uses. *)
Definition StatusNotFound : Z := 404.

Section Disconnect.

(** The type of a worker id, declared with the pool outside the sources at
    hand. *)
Variable WorkerId : Type.

(** What the disconnect handler leaves behind: the response, the slot it
    handed to [workerPool.Put], if any, and the scoreboard. *)
Record DisconnectResult := {
  disconnect_response : Response;
  put_back : option (WorkerId * Worker);
  disconnect_Scoreboard : gmap string Z }.

(** Handler of PATCH /disconnect/{userId}.  [found] is what
    [workerPool.GetWorkerByUserId(userId)] returns ([None] is its error). *)
Definition disconnect (userId : string) (found : option (WorkerId * Worker))
           (scoreboard : gmap string Z) : DisconnectResult :=
  match found with
  | None =>
      {| disconnect_response := {| code := StatusNotFound;
                                   body := "worker not found" |};
         put_back := None;
         disconnect_Scoreboard := scoreboard |}
  | Some (workerId, w) =>
      {| disconnect_response :=
           {| code := StatusOK;
              body := "worker successfully returned to pool" |};
         put_back := Some (workerId, w);
         disconnect_Scoreboard := delete userId scoreboard |}
  end.

End Disconnect.

End server.

(** ** Reading a sender trace *)

(** Tells a [conn.Write] that returned an error. *)
Definition is_write_failure (e : worker_pool.SendEffect) : bool :=
  match e with
  | worker_pool.ConnWrite _ true => true
  | _ => false
  end.

(** Tells a [RemoveUser] call on one of the three collaborators. *)
Definition is_deregistration (e : worker_pool.SendEffect) : bool :=
  match e with
  | worker_pool.GameMapRemoveUser _
  | worker_pool.UserStatusesRemoveUser _
  | worker_pool.ScoreboardRemoveUser _ => true
  | _ => false
  end.

(** The number of failed writes in a trace. *)
Definition write_failures (tr : list worker_pool.SendEffect) : nat :=
  length (List.filter is_write_failure tr).

(** The collaborator removals of a trace, in order. *)
Definition deregistrations (tr : list worker_pool.SendEffect)
  : list worker_pool.SendEffect :=
  List.filter is_deregistration tr.

(** The three removals the sender performs for [clientId] on exhaustion. *)
Definition deregister_user (clientId : string) : list worker_pool.SendEffect :=
  [worker_pool.GameMapRemoveUser clientId;
   worker_pool.UserStatusesRemoveUser clientId;
   worker_pool.ScoreboardRemoveUser clientId].

(** The longest run of consecutive failed writes among the writes of a
    trace: [cur] is the length of the run in progress, [best] the longest
    finished one. *)
Fixpoint longest_failure_run_from (cur best : nat)
         (tr : list worker_pool.SendEffect) : nat :=
  match tr with
  | [] => Nat.max cur best
  | worker_pool.ConnWrite _ true :: tr' => longest_failure_run_from (S cur) best tr'
  | worker_pool.ConnWrite _ false :: tr' =>
      longest_failure_run_from 0 (Nat.max cur best) tr'
  | _ :: tr' => longest_failure_run_from cur best tr'
  end.

(** The longest run of consecutive failed writes of a trace. *)
Definition longest_failure_run (tr : list worker_pool.SendEffect) : nat :=
  longest_failure_run_from 0 0 tr.

(** Sample ticks: the user is present, marshalling succeeds, and the write
    fails or succeeds. *)
Definition sample_tick (write_fails : bool) : worker_pool.Tick :=
  {| worker_pool.tick_userStatus :=
       Some {| game.us_Position := {| game.X := 3; game.Y := 4 |};
               game.ItemEffect := 0 |};
     worker_pool.tick_related := [];
     worker_pool.tick_board := ∅;
     worker_pool.tick_marshal_err := false;
     worker_pool.tick_write_err := write_fails |}.

(** [n] failed writes, each followed by a successful one. *)
Fixpoint alternating_ticks (n : nat) : list worker_pool.SendReady :=
  match n with
  | O => []
  | S n' => worker_pool.STick (sample_tick true)
            :: worker_pool.STick (sample_tick false)
            :: alternating_ticks n'
  end.

(** ** Reading a receiver trace *)

(** The events pushed to the processing stage, in order. *)
Fixpoint pushed (tr : list worker_pool.RecvEffect) : list InboundEvent :=
  match tr with
  | [] => []
  | worker_pool.Push ev :: tr' => ev :: pushed tr'
  | _ :: tr' => pushed tr'
  end.

(** How often the termination signal was sent. *)
Definition terminations (tr : list worker_pool.RecvEffect) : nat :=
  length (List.filter worker_pool.is_termination tr).

(** ** The client's side of the framing *)

(** The client is not part of the sources at hand: what it sends is modelled
    from the framing rules of the specification. *)

(** Modelled from the spec: the message a client builds for a position. *)
Definition protoPosition (p : game.Position) : protodef.Position :=
  {| protodef.X := game.X p; protodef.Y := game.Y p |}.

(** Modelled from the spec: the Status message of an event, with its
    position set. *)
Definition protoStatus (s : game.Status) : protodef.Status :=
  {| protodef.Id := game.Id s;
     protodef.CurrentPosition := Some (protoPosition (game.CurrentPosition s)) |}.

(** Modelled from the spec: the Attack message of an event, with both
    positions set. *)
Definition protoAttack (a : game.Attack) : protodef.Attack :=
  {| protodef.UserId := game.UserId a;
     protodef.UserPosition := Some (protoPosition (game.UserPosition a));
     protodef.AttackPosition := Some (protoPosition (game.AttackPosition a)) |}.

Section Framing.

Variable MarshalStatus : protodef.Status -> list byte.
Variable MarshalAttack : protodef.Attack -> list byte.

(** Modelled from the spec: the serialized payload of an event. *)
Definition marshal_event (ev : InboundEvent) : list byte :=
  match ev with
  | EvStatus s => MarshalStatus (protoStatus s)
  | EvAttack a => MarshalAttack (protoAttack a)
  end.

(** Modelled from the spec: the type tag, 0 for Status and 1 for Attack. *)
Definition packet_type (ev : InboundEvent) : byte :=
  match ev with
  | EvStatus _ => worker_pool.PACKET_TYPE_STATUS
  | EvAttack _ => worker_pool.PACKET_TYPE_ATTACK
  end.

(** Modelled from the spec: the frame a client sends for one message (the
    client is not part of the sources at hand): the type tag, the
    serialized payload, the delimiter. *)
Definition frame (ev : InboundEvent) : list byte :=
  packet_type ev :: marshal_event ev ++ [worker_pool.BUFFER_DELIMITER].

(** Modelled from the spec: the frames of a sequence of messages, one
    after the other. *)
Definition encode_stream (evs : list InboundEvent) : list byte :=
  concat (map frame evs).

Variable UnmarshalStatus : list byte -> protodef.Status * bool.
Variable UnmarshalAttack : list byte -> protodef.Attack * bool.

(** A message the framing can carry: its payload decodes to the message it
    came from, and holds no delimiter byte. *)
Definition carried (ev : InboundEvent) : Prop :=
  ~ In worker_pool.BUFFER_DELIMITER (marshal_event ev) /\
  match ev with
  | EvStatus s =>
      UnmarshalStatus (MarshalStatus (protoStatus s)) = (protoStatus s, false)
  | EvAttack a =>
      UnmarshalAttack (MarshalAttack (protoAttack a)) = (protoAttack a, false)
  end.

End Framing.

(** ** Reading a receiver script *)

(** An error-free read of [data]. *)
Definition read_ok (data : list byte) : worker_pool.RecvReady :=
  worker_pool.RDefault
    {| worker_pool.rd_data := data; worker_pool.rd_err := None |}.

(** The bytes a script delivers through error-free reads. *)
Fixpoint stream_of (script : list worker_pool.RecvReady) : list byte :=
  match script with
  | [] => []
  | worker_pool.RDefault r :: script' =>
      match worker_pool.rd_err r with
      | None => worker_pool.rd_data r ++ stream_of script'
      | Some _ => stream_of script'
      end
  | _ :: script' => stream_of script'
  end.

(** A step that neither ends the loop nor fires the termination signal: a
    liveness ping, a read that reports [io.EOF], or an error-free read that
    does not fill the read buffer. *)
Definition undisturbed (r : worker_pool.RecvReady) : bool :=
  match r with
  | worker_pool.RHealth => true
  | worker_pool.RDefault rd =>
      match worker_pool.rd_err rd with
      | None => (length (worker_pool.rd_data rd) <? worker_pool.BUFFER_SIZE)%nat
      | Some worker_pool.EOF => true
      | Some worker_pool.OtherReadError => false
      end
  | _ => false
  end.

(** The stream cut into reads of at most [n] bytes ([fuel] bounds the number
    of reads). *)
Fixpoint reads_of (fuel n : nat) (stream : list byte) : list worker_pool.RecvReady :=
  match fuel, stream with
  | O, _ => []
  | _, [] => []
  | S fuel', _ => read_ok (take n stream) :: reads_of fuel' n (drop n stream)
  end.

(** An environment in which accepting the connection succeeds. *)
Definition accepted (script : list worker_pool.RecvReady) : worker_pool.RecvEnv :=
  {| worker_pool.accept_err := false;
     worker_pool.deadline_err := false;
     worker_pool.keepalive_err := false;
     worker_pool.recv_script := script |}.

(** ** Messages within the wire format's ranges *)

(** The coordinates are int32 in the messages. *)
Definition int32_range (z : Z) : Prop := - 2 ^ 31 <= z < 2 ^ 31.

(** Both coordinates fit. *)
Definition position_ok (p : game.Position) : Prop :=
  int32_range (game.X p) /\ int32_range (game.Y p).

(** The length of the user id fits the length prefix. *)
Definition id_ok (id : string) : Prop :=
  (N.of_nat (length (String.list_byte_of_string id)) < 2 ^ 64)%N.

(** An event the wire format of [proto] represents faithfully. *)
Definition wire_ok (ev : InboundEvent) : Prop :=
  match ev with
  | EvStatus s => id_ok (game.Id s) /\ position_ok (game.CurrentPosition s)
  | EvAttack a =>
      id_ok (game.UserId a) /\ position_ok (game.UserPosition a) /\
      position_ok (game.AttackPosition a)
  end.

(** ** Sample runs with the wire format of [proto] *)

(** The receiver with protobuf decoding, after a successful accept. *)
Definition receive (script : list worker_pool.RecvReady)
  : list worker_pool.RecvEffect * Outcome :=
  worker_pool.ReceiveDataFromClient
    proto.UnmarshalStatus proto.UnmarshalAttack (accepted script).

(** What a client puts on the wire for a sequence of events. *)
Definition wire (evs : list InboundEvent) : list byte :=
  encode_stream proto.MarshalStatus proto.MarshalAttack evs.

(** Shorthands for events. *)
Definition status_event (id : string) (x y : Z) : InboundEvent :=
  EvStatus {| game.Id := id;
              game.CurrentPosition := {| game.X := x; game.Y := y |} |}.

(** An Attack event of [id] at [(x, y)] on [(x', y')]. *)
Definition attack_event (id : string) (x y x' y' : Z) : InboundEvent :=
  EvAttack {| game.UserId := id;
              game.UserPosition := {| game.X := x; game.Y := y |};
              game.AttackPosition := {| game.X := x'; game.Y := y' |} |}.

(** A Status frame whose payload breaks off inside the user id, after an
    empty position: tag 0, field 2 of length 0, field 1 announcing five
    bytes and holding one, delimiter. *)
Definition malformed_frame : list byte := [x00; x12; x00; x0a; x05; x61; x24].


(** ** Reading a processor script *)

(** A step on which the processor loops: a status event that carries a
    position, or a liveness ping. *)
Definition loops_on (r : task.ProcReady) : bool :=
  match r with
  | task.PStatus status =>
      match task.safeStatus status with Some _ => true | None => false end
  | task.PHealth => true
  | _ => false
  end.

(** A slot for the examples. *)
Definition sample_worker (s : worker_status.WorkerStatus) : worker_pool.Worker :=
  {| worker_pool.Port := 9001;
     worker_pool.status := s;
     worker_pool.OwnerUserID := "";
     worker_pool.ClientIP := None;
     worker_pool.ClientPort := 0;
     worker_pool.SendUserRelatedDataToClient :=
       Some worker_pool.CollectToSendUserRelatedDataToClient |}.

(** ** Sequences of slot method calls *)

(** A call of one of the two slot methods. *)
Inductive SlotCall :=
| SetInfo (userId : string) (clientIP : option IP) (clientPort : Z)
      (* w.SetClientInformation(userId, clientIP, clientPort) *)
| StartSend.
      (* w.StartSendUserRelatedDataToClient() *)

(** One call on a slot. *)
Definition slot_call (w : worker_pool.Worker) (c : SlotCall)
  : worker_pool.SlotResult :=
  match c with
  | SetInfo userId clientIP clientPort =>
      worker_pool.SetClientInformation w userId clientIP clientPort
  | StartSend => worker_pool.StartSendUserRelatedDataToClient w
  end.

(** Calls made one after the other on the same slot: the slot afterwards,
    everything emitted, and the error each call returned. *)
Fixpoint slot_calls (w : worker_pool.Worker) (cs : list SlotCall)
  : worker_pool.Worker * list worker_pool.SlotEffect
    * list (option worker_pool.InvalidStateError) :=
  match cs with
  | [] => (w, [], [])
  | c :: cs' =>
      let r := slot_call w c in
      let '(w', tr, errs) := slot_calls (worker_pool.slot r) cs' in
      (w', worker_pool.emitted r ++ tr, worker_pool.err r :: errs)
  end.

(** Tells the start of the send routine. *)
Definition is_go_send (e : worker_pool.SlotEffect) : bool :=
  match e with
  | worker_pool.GoSend _ => true
  | worker_pool.ForceExit => false
  end.

(** How often the send routine was started. *)
Definition send_starts (tr : list worker_pool.SlotEffect) : nat :=
  length (List.filter is_go_send tr).

(** The arguments of the first [SetInfo] of a sequence of calls. *)
Fixpoint first_info (cs : list SlotCall) : option (string * option IP * Z) :=
  match cs with
  | [] => None
  | SetInfo userId clientIP clientPort :: _ => Some (userId, clientIP, clientPort)
  | StartSend :: cs' => first_info cs'
  end.

(** The session fields of a slot. *)
Definition session_of (w : worker_pool.Worker) : string * option IP * Z :=
  (worker_pool.OwnerUserID w, worker_pool.ClientIP w, worker_pool.ClientPort w).

(** ** More readings of receiver traces and scripts *)

(** Tells the release of a socket. *)
Definition is_release (e : worker_pool.RecvEffect) : bool :=
  match e with
  | worker_pool.ConnClose | worker_pool.ListenerClose => true
  | _ => false
  end.

(** Tells an extension of the read deadline. *)
Definition is_extension (e : worker_pool.RecvEffect) : bool :=
  match e with
  | worker_pool.ExtendDeadline => true
  | _ => false
  end.

(** How often the read deadline was extended. *)
Definition deadline_extensions (tr : list worker_pool.RecvEffect) : nat :=
  length (List.filter is_extension tr).

(** Tells a read that brings at least one byte and does not report
    [io.EOF]. *)
Definition brings_data (r : worker_pool.RecvReady) : bool :=
  match r with
  | worker_pool.RDefault rd =>
      match worker_pool.rd_err rd with
      | Some worker_pool.EOF => false
      | _ => (0 <? length (worker_pool.rd_data rd))%nat
      end
  | _ => false
  end.

(** The number of such reads in a script. *)
Definition data_reads (script : list worker_pool.RecvReady) : nat :=
  length (List.filter brings_data script).

(** Tells a branch on which the receiver returns whatever its state. *)
Definition stops_receiver (r : worker_pool.RecvReady) : bool :=
  match r with
  | worker_pool.RDone | worker_pool.RForceExit => true
  | _ => false
  end.

(** ** More readings of sender traces and scripts *)

(** Tells a branch on which the sender returns. *)
Definition stops_sender (r : worker_pool.SendReady) : bool :=
  match r with
  | worker_pool.SDone | worker_pool.SStop | worker_pool.SForceExit => true
  | worker_pool.STick _ => false
  end.


(** ** Facts the receiver's outer loop keeps *)

(** The facts the outer loop keeps, for a trace [tr] that ends with [o]
    on a script with [n] reads that bring data. *)
Definition loop_facts (tr : list worker_pool.RecvEffect) (o : Outcome) (n : nat) : Prop :=
  o <> Fatal /\
  Forall (fun e => is_release e = false) tr /\
  (deadline_extensions tr <= n)%nat /\
  (o = Running -> deadline_extensions tr = n).

(** ** Ticks the sender skips *)

(** Tells a broadcast tick that finds no status for the user. *)
Definition is_idle_tick (r : worker_pool.SendReady) : bool :=
  match r with
  | worker_pool.STick t =>
      match worker_pool.tick_userStatus t with
      | None => true
      | Some _ => false
      end
  | _ => false
  end.

(** ** Reading a sender script *)

(** The write a select branch asks of the sender: a broadcast tick that
    finds a status for the user asks for one [conn.Write] of that tick's
    snapshot, which fails or not as the tick says. *)
Definition write_of (r : worker_pool.SendReady) : list worker_pool.SendEffect :=
  match r with
  | worker_pool.STick t =>
      match worker_pool.tick_userStatus t with
      | Some us =>
          [worker_pool.ConnWrite (worker_pool.protoUserRelatedPositions us t)
                                 (worker_pool.tick_write_err t)]
      | None => []
      end
  | _ => []
  end.

(** The writes a script asks for, in order. *)
Definition writes_of (script : list worker_pool.SendReady)
  : list worker_pool.SendEffect :=
  concat (map write_of script).

(** Tells a broadcast tick whose write fails. *)
Definition write_fails (r : worker_pool.SendReady) : bool :=
  match r with
  | worker_pool.STick t =>
      match worker_pool.tick_userStatus t with
      | Some _ => worker_pool.tick_write_err t
      | None => false
      end
  | _ => false
  end.

(** The number of such ticks in a script. *)
Definition failing_ticks (script : list worker_pool.SendReady) : nat :=
  length (List.filter write_fails script).

(** Tells a broadcast tick whose snapshot, if it has one, marshals. *)
Definition is_plain_tick (r : worker_pool.SendReady) : bool :=
  match r with
  | worker_pool.STick t =>
      match worker_pool.tick_userStatus t with
      | Some _ => negb (worker_pool.tick_marshal_err t)
      | None => true
      end
  | _ => false
  end.

(** ** What the processor is sent *)

(** What reaches the processor while it loops: a status of the client, with
    its position, or the health checker's ping. *)
Inductive ProcInput :=
| InStatus (s : game.Status)
| InPing.

(** The select branch an input makes ready. *)
Definition arrives (i : ProcInput) : task.ProcReady :=
  match i with
  | InStatus s => task.PStatus (Some (protoStatus s))
  | InPing => task.PHealth
  end.

(** What the processor owes an input: the status applied to the game map
    as it was sent, the ping echoed. *)
Definition answer (i : ProcInput) : task.ProcEffect :=
  match i with
  | InStatus s => task.UpdateUserPosition s
  | InPing => task.ProcHealthEcho
  end.

(** * Properties *)

Import worker_status worker_pool.

Lemma worker_status_eqb_eq (a b : WorkerStatus) :
  worker_status.eqb a b = true <-> a = b.
Proof. destruct a, b; simpl; split; intros H; congruence. Qed.

Lemma worker_status_eqb_neq (a b : WorkerStatus) :
  worker_status.eqb a b = false <-> a <> b.
Proof. destruct a, b; simpl; split; intros H; congruence. Qed.

(** ** The slot state machine *)

(** C3. On a slot that is not PULLED_OUT, [SetClientInformation] returns the
    invalid-state error, emits exactly one force-exit signal and leaves the
    slot as it was: owner, client IP, client port and status are unchanged.
    On a PULLED_OUT slot it returns nil, emits nothing, stores the three
    fields and moves the status to CLIENT_INFORMATION_RECEIVED. *)
Theorem SetClientInformation_state_machine
        (w : Worker) (userId : string) (clientIP : option IP) (clientPort : Z) :
  let r := SetClientInformation w userId clientIP clientPort in
  (status w <> PULLED_OUT ->
     err r = Some NotPulledOut /\ emitted r = [ForceExit] /\
     slot r = w /\
     OwnerUserID (slot r) = OwnerUserID w /\
     ClientIP (slot r) = ClientIP w /\
     ClientPort (slot r) = ClientPort w /\
     status (slot r) = status w)
  /\
  (status w = PULLED_OUT ->
     err r = None /\ emitted r = [] /\
     OwnerUserID (slot r) = userId /\
     ClientIP (slot r) = clientIP /\
     ClientPort (slot r) = clientPort /\
     status (slot r) = CLIENT_INFORMATION_RECEIVED /\
     Port (slot r) = Port w).
Proof.
  unfold SetClientInformation, GetStatus. split; intros Hs.
  - apply worker_status_eqb_neq in Hs. rewrite Hs. simpl. tauto.
  - rewrite Hs. simpl. tauto.
Qed.

(** A WORKING slot refuses the client information; a PULLED_OUT slot takes
    it. *)
Lemma SetClientInformation_state_machine_witness :
  let busy := {| Port := 9001; status := WORKING; OwnerUserID := "u1";
                 ClientIP := Some [x7f; x00; x00; x01]; ClientPort := 4000;
                 SendUserRelatedDataToClient := None |} in
  let r := SetClientInformation busy "u2" None 5000 in
  let r' := SetClientInformation (sample_worker PULLED_OUT) "u2"
                                 (Some [x0a; x00; x00; x02]) 5000 in
  (err r = Some NotPulledOut /\ emitted r = [ForceExit] /\ slot r = busy) /\
  (err r' = None /\ emitted r' = [] /\
   OwnerUserID (slot r') = "u2" /\
   ClientIP (slot r') = Some [x0a; x00; x00; x02] /\
   ClientPort (slot r') = 5000 /\
   status (slot r') = CLIENT_INFORMATION_RECEIVED).
Proof.
  intros busy r r'. split.
  - destruct (proj1 (SetClientInformation_state_machine busy "u2" None 5000))
      as (He & Hem & Hs & _); [simpl; discriminate |].
    exact (conj He (conj Hem Hs)).
  - destruct (proj2 (SetClientInformation_state_machine
                       (sample_worker PULLED_OUT) "u2"
                       (Some [x0a; x00; x00; x02]) 5000))
      as (He & Hem & Ho & Hi & Hp & Hs & _); [reflexivity |].
    repeat split; assumption.
Defined.

(** C4. [StartSendUserRelatedDataToClient] moves a CLIENT_INFORMATION_RECEIVED
    slot that has a send routine to WORKING and starts that routine on the
    slot's owner and client address; when the slot is in another state, or has
    no send routine, it returns an invalid-state error, emits one force-exit
    signal and leaves the slot, its status included, unchanged. *)
Theorem StartSend_guard (w : Worker) :
  let r := StartSendUserRelatedDataToClient w in
  (forall routine,
     status w = CLIENT_INFORMATION_RECEIVED ->
     SendUserRelatedDataToClient w = Some routine ->
     err r = None /\
     status (slot r) = WORKING /\
     emitted r = [GoSend (routine (OwnerUserID w) (ClientIP w) (ClientPort w))])
  /\
  (status w <> CLIENT_INFORMATION_RECEIVED \/ SendUserRelatedDataToClient w = None ->
     (exists e, err r = Some e) /\
     emitted r = [ForceExit] /\
     slot r = w).
Proof.
  unfold StartSendUserRelatedDataToClient, GetStatus. split.
  - intros routine Hs Hr. rewrite Hs, Hr. simpl. tauto.
  - intros [Hs | Hr].
    + apply worker_status_eqb_neq in Hs. rewrite Hs. simpl. eauto.
    + rewrite Hr. destruct (negb _); simpl; eauto.
Qed.

(** A slot with client information starts sending; a PULLED_OUT slot does
    not. *)
Lemma StartSend_guard_witness :
  let ready := {| Port := 9001; status := CLIENT_INFORMATION_RECEIVED;
                  OwnerUserID := "u1";
                  ClientIP := Some [x7f; x00; x00; x01]; ClientPort := 4000;
                  SendUserRelatedDataToClient :=
                    Some CollectToSendUserRelatedDataToClient |} in
  let r := StartSendUserRelatedDataToClient ready in
  let r' := StartSendUserRelatedDataToClient (sample_worker PULLED_OUT) in
  (err r = None /\ status (slot r) = WORKING /\
   emitted r = [GoSend (CollectToSendUserRelatedDataToClient
                          "u1" (Some [x7f; x00; x00; x01]) 4000)]) /\
  (err r' = Some NotClientInformationReceived /\ emitted r' = [ForceExit] /\
   slot r' = sample_worker PULLED_OUT).
Proof.
  intros ready r r'. split.
  - apply (proj1 (StartSend_guard ready) CollectToSendUserRelatedDataToClient);
      reflexivity.
  - destruct (proj2 (StartSend_guard (sample_worker PULLED_OUT)))
      as ([e He] & Hem & Hs); [left; simpl; discriminate |].
    repeat split; assumption.
Defined.

(** ** The sender's fault-tolerance budget *)

Lemma write_failures_cons (e : SendEffect) (tr : list SendEffect) :
  write_failures (e :: tr)
  = ((if is_write_failure e then 1 else 0) + write_failures tr)%nat.
Proof. unfold write_failures. simpl. destruct (is_write_failure e); reflexivity. Qed.

Lemma write_failures_app (tr1 tr2 : list SendEffect) :
  write_failures (tr1 ++ tr2) = (write_failures tr1 + write_failures tr2)%nat.
Proof. unfold write_failures. rewrite List.filter_app, length_app. reflexivity. Qed.

Lemma deregistrations_app (tr1 tr2 : list SendEffect) :
  deregistrations (tr1 ++ tr2) = deregistrations tr1 ++ deregistrations tr2.
Proof. apply List.filter_app. Qed.

(** The loop started with a budget of [ft] remaining failures: it panics
    exactly at its [ft]-th failed write, right after the three removals, and
    removes nothing before. *)
Lemma sender_loop_budget (clientId : string) (script : list SendReady) :
  forall ft : Z, 0 < ft ->
    let tr := fst (sender_loop clientId script ft) in
    let o := snd (sender_loop clientId script ft) in
    (o <> Panicked ->
       Z.of_nat (write_failures tr) < ft /\ deregistrations tr = []) /\
    (o = Panicked ->
       Z.of_nat (write_failures tr) = ft /\
       exists tr0 msg,
         tr = tr0 ++ ConnWrite msg true :: deregister_user clientId /\
         deregistrations tr0 = []).
Proof.
  assert (Hstop : forall ft : Z, 0 < ft ->
            (Z.of_nat (write_failures []) < ft /\ deregistrations [] = [])).
  { intros ft Hft. split; [unfold write_failures; simpl; lia | reflexivity]. }
  induction script as [| ev script IH]; intros ft Hft; simpl.
  - split; [intros _; auto | discriminate].
  - destruct ev as [ | | | t]; simpl;
      try (split; [intros _; auto | discriminate]).
    destruct (tick_userStatus t) as [us |]; [| apply IH; assumption].
    destruct (tick_marshal_err t); simpl;
      [split; [intros _; auto | discriminate] |].
    destruct (tick_write_err t).
    + destruct (Z.leb_spec (ft - 1) 0) as [Hle | Hgt]; simpl.
      * split; [congruence |]. intros _. split.
        -- unfold write_failures. simpl. lia.
        -- exists [], (protoUserRelatedPositions us t). split; reflexivity.
      * specialize (IH (ft - 1) Hgt).
        destruct (sender_loop clientId script (ft - 1)) as [tr o].
        simpl in *. destruct IH as [IHn IHp]. split.
        -- intros Ho. destruct (IHn Ho) as [Hc Hd]. split.
           ++ rewrite write_failures_cons. simpl. lia.
           ++ unfold deregistrations in *. simpl. exact Hd.
        -- intros Ho. destruct (IHp Ho) as [Hc (tr0 & msg & Htr & Hd)]. split.
           ++ rewrite write_failures_cons. simpl. lia.
           ++ exists (ConnWrite (protoUserRelatedPositions us t) true :: tr0), msg.
              split; [rewrite Htr; reflexivity |].
              unfold deregistrations in *. simpl. exact Hd.
    + specialize (IH ft Hft).
      destruct (sender_loop clientId script ft) as [tr o].
      simpl in *. destruct IH as [IHn IHp]. split.
      * intros Ho. destruct (IHn Ho) as [Hc Hd]. split.
        -- rewrite write_failures_cons. simpl. lia.
        -- unfold deregistrations in *. simpl. exact Hd.
      * intros Ho. destruct (IHp Ho) as [Hc (tr0 & msg & Htr & Hd)]. split.
        -- rewrite write_failures_cons. simpl. lia.
        -- exists (ConnWrite (protoUserRelatedPositions us t) false :: tr0), msg.
           split; [rewrite Htr; reflexivity |].
           unfold deregistrations in *. simpl. exact Hd.
Qed.

Lemma failing_ticks_cons (r : SendReady) (script : list SendReady) :
  failing_ticks (r :: script)
  = ((if write_fails r then 1 else 0) + failing_ticks script)%nat.
Proof. unfold failing_ticks. cbn [List.filter]. destruct (write_fails r); reflexivity. Qed.

(** On broadcast ticks alone the loop performs every write asked for and
    goes on, as long as the failing ones are fewer than its budget. *)
Lemma sender_loop_serves (clientId : string) (script : list SendReady) :
  forall ft : Z,
    Forall (fun r => is_plain_tick r = true) script ->
    Z.of_nat (failing_ticks script) < ft ->
    sender_loop clientId script ft = (writes_of script, Running).
Proof.
  induction script as [| r script IH]; intros ft Hall Hlt; [reflexivity |].
  apply List.Forall_cons_iff in Hall. destruct Hall as [Hr Hall].
  rewrite failing_ticks_cons in Hlt.
  destruct r as [| | | t]; try discriminate Hr.
  unfold writes_of. cbn [sender_loop map concat write_of].
  cbn [is_plain_tick write_fails] in Hr, Hlt.
  destruct (tick_userStatus t) as [us |].
  - apply negb_true_iff in Hr. rewrite Hr.
    destruct (tick_write_err t).
    + destruct (Z.leb_spec (ft - 1) 0) as [Hle | Hgt]; [lia |].
      rewrite (IH (ft - 1) Hall ltac:(lia)). reflexivity.
    + rewrite (IH ft Hall ltac:(lia)). reflexivity.
  - rewrite (IH ft Hall ltac:(lia)). reflexivity.
Qed.

(** The failing tick that uses the budget up ends the loop: one more write,
    the three removals, and a panic, whatever comes after. *)
Lemma sender_loop_exhausts (clientId : string) (pre : list SendReady)
      (t : Tick) (us : game.UserStatus) (rest : list SendReady) :
  forall ft : Z,
    Forall (fun r => is_plain_tick r = true) pre ->
    Z.of_nat (failing_ticks pre) = ft - 1 ->
    tick_userStatus t = Some us ->
    tick_marshal_err t = false ->
    tick_write_err t = true ->
    sender_loop clientId (pre ++ STick t :: rest) ft
    = (writes_of pre ++ ConnWrite (protoUserRelatedPositions us t) true
                  :: deregister_user clientId,
       Panicked).
Proof.
  induction pre as [| r pre IH]; intros ft Hall Hft Hus Hm Hw.
  - cbn [app sender_loop]. rewrite Hus, Hm, Hw.
    unfold failing_ticks in Hft. cbn in Hft.
    destruct (Z.leb_spec (ft - 1) 0) as [Hle | Hgt]; [reflexivity | lia].
  - apply List.Forall_cons_iff in Hall. destruct Hall as [Hr Hall].
    rewrite failing_ticks_cons in Hft.
    destruct r as [| | | t0]; try discriminate Hr.
    unfold writes_of. cbn [app sender_loop map concat write_of].
    cbn [is_plain_tick write_fails] in Hr, Hft.
    destruct (tick_userStatus t0) as [us0 |].
    + apply negb_true_iff in Hr. rewrite Hr.
      destruct (tick_write_err t0).
      * destruct (Z.leb_spec (ft - 1) 0) as [Hle | Hgt]; [lia |].
        rewrite (IH (ft - 1) Hall ltac:(lia) Hus Hm Hw). reflexivity.
      * rewrite (IH ft Hall ltac:(lia) Hus Hm Hw). reflexivity.
    + rewrite (IH ft Hall ltac:(lia) Hus Hm Hw). reflexivity.
Qed.

(** C2 (amended). A send routine that got past address resolution and dialling
    tolerates 99 failed writes and is torn down by the 100th, in a row or
    not.  On broadcast ticks of which fewer than 100 fail it performs every
    write asked for, removes the user from no collaborator, sends no
    termination signal and is still running.  The failing tick that comes
    after 99 failed ones is its last: after that write it removes the user
    from the game map, the user statuses and the scoreboard, once each and
    in that order, panics, and the deferred termination signal is the last
    thing it does; what follows is not served.  On any script at all, the
    trace holds at most 100 failed writes, no removal and no panic below
    100, and the removals and the panic at 100. *)
Theorem sender_fault_tolerance_exhaustion
        (clientId : string) (ip : IP) (port : Z) (env : SendEnv) :
  resolve_err env = false ->
  dial_err env = false ->
  let r := CollectToSendUserRelatedDataToClient clientId (Some ip) port env in
  (Forall (fun s => is_plain_tick s = true) (send_script env) ->
   (failing_ticks (send_script env) < 100)%nat ->
     r = (writes_of (send_script env), Running)) /\
  (forall pre t us rest,
     send_script env = pre ++ STick t :: rest ->
     Forall (fun s => is_plain_tick s = true) pre ->
     failing_ticks pre = 99%nat ->
     tick_userStatus t = Some us ->
     tick_marshal_err t = false ->
     tick_write_err t = true ->
     r = (writes_of pre
            ++ ConnWrite (protoUserRelatedPositions us t) true
            :: deregister_user clientId ++ [SenderTermination],
          Panicked)) /\
  (write_failures (fst r) <= 100)%nat /\
  ((write_failures (fst r) < 100)%nat ->
     deregistrations (fst r) = [] /\ snd r <> Panicked) /\
  (write_failures (fst r) = 100%nat ->
     deregistrations (fst r) = deregister_user clientId /\
     snd r = Panicked /\
     exists tr0 msg,
       fst r = tr0 ++ ConnWrite msg true
                   :: deregister_user clientId ++ [SenderTermination]).
Proof.
  intros Hres Hdial. unfold CollectToSendUserRelatedDataToClient.
  rewrite Hres, Hdial.
  split; [| split].
  - intros Hall Hlt.
    rewrite (sender_loop_serves clientId _ 100 Hall ltac:(lia)). reflexivity.
  - intros pre t us rest Hscript Hall Hft Hus Hm Hw. rewrite Hscript.
    rewrite (sender_loop_exhausts clientId pre t us rest 100 Hall
                                  ltac:(lia) Hus Hm Hw).
    unfold sender_deferred. cbn [fst snd].
    rewrite <- app_assoc. reflexivity.
  - pose proof (sender_loop_budget clientId (send_script env) 100 eq_refl) as H.
    destruct (sender_loop clientId (send_script env) 100) as [tr o].
    simpl in H. destruct H as [Hn Hp].
    assert (Hterm : write_failures [SenderTermination] = 0%nat) by reflexivity.
    destruct o; unfold sender_deferred; simpl.
    + destruct Hn as [Hc Hd]; [discriminate |].
      repeat split; try lia; try assumption; try discriminate.
    + destruct Hn as [Hc Hd]; [discriminate |].
      rewrite write_failures_app, deregistrations_app, Hd, Hterm.
      repeat split; try lia; try reflexivity; try discriminate.
    + destruct (Hp eq_refl) as [Hc (tr0 & msg & Htr & Hd)].
      rewrite write_failures_app, deregistrations_app, Hterm.
      assert (Hdereg : deregistrations tr = deregister_user clientId).
      { rewrite Htr, deregistrations_app, Hd. reflexivity. }
      rewrite Hdereg. repeat split; try lia.
      exists tr0, msg. rewrite Htr, <- app_assoc. reflexivity.
    + destruct Hn as [Hc Hd]; [discriminate |].
      repeat split; try lia; try assumption; try discriminate.
Qed.

(** Ninety-nine failed writes, each followed by a successful one, leave the
    routine running with all 198 writes done; one more failed write tears
    it down. *)
Lemma sender_fault_tolerance_exhaustion_witness :
  let run script :=
    CollectToSendUserRelatedDataToClient
      "u1" (Some [x7f; x00; x00; x01]) 4000
      {| resolve_err := false; dial_err := false; send_script := script |} in
  let msg := protoUserRelatedPositions
               {| game.us_Position := {| game.X := 3; game.Y := 4 |};
                  game.ItemEffect := 0 |} (sample_tick true) in
  run (alternating_ticks 99) = (writes_of (alternating_ticks 99), Running) /\
  length (writes_of (alternating_ticks 99)) = 198%nat /\
  run (alternating_ticks 99 ++ STick (sample_tick true) :: [STick (sample_tick false)])
  = (writes_of (alternating_ticks 99)
       ++ [ConnWrite msg true;
           GameMapRemoveUser "u1"; UserStatusesRemoveUser "u1";
           ScoreboardRemoveUser "u1"; SenderTermination],
     Panicked).
Proof.
  intros run msg.
  assert (Hall : Forall (fun s => is_plain_tick s = true) (alternating_ticks 99)).
  { apply List.Forall_forall. intros s Hs.
    assert (H : forallb is_plain_tick (alternating_ticks 99) = true)
      by (vm_compute; reflexivity).
    rewrite List.forallb_forall in H. exact (H s Hs). }
  destruct (sender_fault_tolerance_exhaustion
              "u1" [x7f; x00; x00; x01] 4000
              {| resolve_err := false; dial_err := false;
                 send_script := alternating_ticks 99 |} eq_refl eq_refl)
    as (Hserved & _).
  destruct (sender_fault_tolerance_exhaustion
              "u1" [x7f; x00; x00; x01] 4000
              {| resolve_err := false; dial_err := false;
                 send_script := alternating_ticks 99 ++ STick (sample_tick true)
                                  :: [STick (sample_tick false)] |}
              eq_refl eq_refl)
    as (_ & Hlast & _).
  split; [| split].
  - apply Hserved; [exact Hall | vm_compute; lia].
  - vm_compute. reflexivity.
  - apply (Hlast (alternating_ticks 99) (sample_tick true) _
                 [STick (sample_tick false)] eq_refl Hall);
      [vm_compute; reflexivity | reflexivity | reflexivity | reflexivity].
Defined.

(** C2 as stated fails: 100 failed writes, each followed by a successful
    one, never make two failures in a row, and still the sender removes the
    user from the three collaborators and panics. *)
Lemma sender_teardown_without_consecutive_failures :
  let env := {| resolve_err := false; dial_err := false;
                send_script := alternating_ticks 100 |} in
  let r := CollectToSendUserRelatedDataToClient
             "u1" (Some [x7f; x00; x00; x01]) 4000 env in
  longest_failure_run (fst r) = 1%nat /\
  write_failures (fst r) = 100%nat /\
  deregistrations (fst r) = deregister_user "u1" /\
  snd r = Panicked.
Proof. vm_compute. repeat split. Qed.

(** Exactly 100 failed writes in a row, which is not more than 100, already
    exhaust the budget. *)
Lemma sender_exhausted_by_hundredth_failure :
  let env := {| resolve_err := false; dial_err := false;
                send_script := repeat (STick (sample_tick true)) 100 |} in
  let r := CollectToSendUserRelatedDataToClient
             "u1" (Some [x7f; x00; x00; x01]) 4000 env in
  longest_failure_run (fst r) = 100%nat /\
  deregistrations (fst r) = deregister_user "u1" /\
  snd r = Panicked.
Proof. vm_compute. repeat split. Qed.

(** With 99 failed writes the routine is still running. *)
Lemma sender_survives_ninety_nine_failures :
  let env := {| resolve_err := false; dial_err := false;
                send_script := repeat (STick (sample_tick true)) 99 |} in
  let r := CollectToSendUserRelatedDataToClient
             "u1" (Some [x7f; x00; x00; x01]) 4000 env in
  write_failures (fst r) = 99%nat /\
  deregistrations (fst r) = [] /\
  snd r = Running.
Proof. vm_compute. repeat split. Qed.

(** ** The accumulation buffer *)

Lemma byte_eqb_eq (a b : byte) : Byte.eqb a b = true <-> a = b.
Proof. split; [apply byte_dec_bl | apply byte_dec_lb]. Qed.

Lemma byte_eqb_neq (a b : byte) : Byte.eqb a b = false <-> a <> b.
Proof.
  split.
  - intros H Heq. apply byte_eqb_eq in Heq. congruence.
  - intros H. destruct (Byte.eqb a b) eqn:E; [| reflexivity].
    apply byte_eqb_eq in E. contradiction.
Qed.

Lemma ReadBytes_no_delim (d : byte) (buf : list byte) :
  ~ In d buf -> ReadBytes d buf = (buf, [], true).
Proof.
  induction buf as [| b buf IH]; intros Hn; simpl; [reflexivity |].
  destruct (Byte.eqb b d) eqn:E.
  - apply byte_eqb_eq in E. subst. exfalso. apply Hn. left. reflexivity.
  - rewrite IH; [reflexivity |]. intros Hin. apply Hn. right. exact Hin.
Qed.

Lemma ReadBytes_frame (d : byte) (body rest : list byte) :
  ~ In d body -> ReadBytes d (body ++ d :: rest) = (body ++ [d], rest, false).
Proof.
  induction body as [| b body IH]; intros Hn; simpl.
  - rewrite (proj2 (byte_eqb_eq d d) eq_refl). reflexivity.
  - destruct (Byte.eqb b d) eqn:E.
    + apply byte_eqb_eq in E. subst. exfalso. apply Hn. left. reflexivity.
    + rewrite IH; [reflexivity |]. intros Hin. apply Hn. right. exact Hin.
Qed.

(** Every buffer is either free of the delimiter or starts with a frame. *)
Lemma delimiter_split (d : byte) (buf : list byte) :
  ~ In d buf \/
  exists body rest, buf = body ++ d :: rest /\ ~ In d body.
Proof.
  induction buf as [| b buf IH].
  - left. intros [].
  - destruct (byte_eq_dec b d) as [-> | Hne].
    + right. exists [], buf. split; [reflexivity | intros []].
    + destruct IH as [Hn | (body & rest & -> & Hn)].
      * left. intros [H | H]; [congruence | contradiction].
      * right. exists (b :: body), rest. split; [reflexivity |].
        intros [H | H]; [congruence | contradiction].
Qed.

Section ReceiverFacts.

Variable UnmarshalStatus : list byte -> protodef.Status * bool.
Variable UnmarshalAttack : list byte -> protodef.Attack * bool.

Local Abbreviation decode_frame := (decode_frame UnmarshalStatus UnmarshalAttack).
Local Abbreviation decode_loop := (decode_loop UnmarshalStatus UnmarshalAttack).
Local Abbreviation decode_all := (decode_all UnmarshalStatus UnmarshalAttack).
Local Abbreviation receiver_loop := (receiver_loop UnmarshalStatus UnmarshalAttack).

Lemma decode_loop_no_delim (fuel : nat) (buf : list byte) :
  ~ In BUFFER_DELIMITER buf ->
  decode_loop (S fuel) buf = Some ([], Break buf).
Proof.
  intros Hn. simpl. rewrite (ReadBytes_no_delim _ _ Hn). reflexivity.
Qed.

Lemma decode_loop_frame (fuel : nat) (body rest : list byte) :
  ~ In BUFFER_DELIMITER body ->
  decode_loop (S fuel) (body ++ BUFFER_DELIMITER :: rest)
  = let '(tr, panicked) := decode_frame (body ++ [BUFFER_DELIMITER]) in
    if panicked then Some (tr, LoopPanic)
    else match decode_loop fuel rest with
         | Some (tr', e) => Some (tr ++ tr', e)
         | None => None
         end.
Proof.
  intros Hn. simpl. rewrite (ReadBytes_frame _ _ _ Hn). reflexivity.
Qed.

(** The inner loop never runs out of rounds, and more rounds change nothing. *)
Lemma decode_loop_enough (buf : list byte) :
  forall fuel, (length buf < fuel)%nat ->
    decode_loop fuel buf = Some (decode_all buf).
Proof.
  induction buf as [buf IH] using (induction_ltof1 _ (@length byte)).
  unfold ltof in IH.
  assert (Hsome : forall fuel, (length buf < fuel)%nat ->
            exists r, forall fuel', (length buf < fuel')%nat ->
              decode_loop fuel' buf = Some r).
  { intros _ _.
    destruct (delimiter_split BUFFER_DELIMITER buf)
      as [Hn | (body & rest & -> & Hn)].
    - exists ([], Break buf). intros [| f] Hf; [lia |].
      apply decode_loop_no_delim; assumption.
    - assert (Hlen : (length rest < length (body ++ BUFFER_DELIMITER :: rest))%nat).
      { rewrite length_app. simpl. lia. }
      destruct (decode_frame (body ++ [BUFFER_DELIMITER])) as [tr panicked] eqn:Ef.
      destruct panicked.
      + exists (tr, LoopPanic). intros [| f] Hf; [lia |].
        rewrite decode_loop_frame, Ef by assumption. reflexivity.
      + destruct (decode_all rest) as [tr' e] eqn:Er.
        exists (tr ++ tr', e). intros [| f] Hf; [lia |].
        rewrite decode_loop_frame, Ef by assumption.
        rewrite (IH rest Hlen f), Er; [reflexivity |].
        rewrite length_app in Hf. simpl in Hf. lia. }
  intros fuel Hf. destruct (Hsome fuel Hf) as [r Hr].
  rewrite (Hr fuel Hf). unfold decode_all.
  rewrite (Hr (S (length buf))) by lia. reflexivity.
Qed.

Lemma decode_all_no_delim (buf : list byte) :
  ~ In BUFFER_DELIMITER buf -> decode_all buf = ([], Break buf).
Proof.
  intros Hn. unfold decode_all. rewrite decode_loop_no_delim by assumption.
  reflexivity.
Qed.

Lemma decode_all_frame (body rest : list byte) :
  ~ In BUFFER_DELIMITER body ->
  decode_all (body ++ BUFFER_DELIMITER :: rest)
  = let '(tr, panicked) := decode_frame (body ++ [BUFFER_DELIMITER]) in
    if panicked then (tr, LoopPanic)
    else let '(tr', e) := decode_all rest in (tr ++ tr', e).
Proof.
  intros Hn. unfold decode_all at 1.
  rewrite decode_loop_frame by assumption.
  destruct (decode_frame (body ++ [BUFFER_DELIMITER])) as [tr panicked].
  destruct panicked; [reflexivity |].
  rewrite (decode_loop_enough rest).
  - destruct (decode_all rest). reflexivity.
  - rewrite length_app. simpl. lia.
Qed.

(** *** Well-formed frames *)

Variable MarshalStatus : protodef.Status -> list byte.
Variable MarshalAttack : protodef.Attack -> list byte.

Local Abbreviation wire_frame := (frame MarshalStatus MarshalAttack).
Local Abbreviation wire_stream := (encode_stream MarshalStatus MarshalAttack).
Local Abbreviation wire_payload := (marshal_event MarshalStatus MarshalAttack).
Local Abbreviation is_carried :=
  (carried MarshalStatus MarshalAttack UnmarshalStatus UnmarshalAttack).

Lemma payload_frame (tag : byte) (p : list byte) :
  payload (tag :: p ++ [BUFFER_DELIMITER]) = Some p.
Proof.
  unfold payload, slice. cbn [length]. rewrite length_app. cbn [length].
  replace (S (length p + 1) - 1)%nat with (S (length p)) by lia.
  assert (H1 : (1 <=? S (length p))%nat = true) by (apply Nat.leb_le; lia).
  assert (H2 : (S (length p) <=? S (length p + 1))%nat = true)
    by (apply Nat.leb_le; lia).
  rewrite H1, H2. cbn [andb].
  replace (S (length p) - 1)%nat with (length p) by lia.
  change (drop 1 (tag :: p ++ [BUFFER_DELIMITER])) with (p ++ [BUFFER_DELIMITER]).
  rewrite take_app_length. reflexivity.
Qed.

Lemma gameStatus_protoStatus (s : game.Status) :
  gameStatus (protoStatus s) = Some s.
Proof. destruct s as [id [x y]]. reflexivity. Qed.

Lemma gameAttack_protoAttack (a : game.Attack) :
  gameAttack (protoAttack a) = Some a.
Proof. destruct a as [id [x y] [x' y']]. reflexivity. Qed.

Lemma decode_frame_carried (ev : InboundEvent) :
  is_carried ev -> decode_frame (wire_frame ev) = ([Push ev], false).
Proof.
  intros [_ Hdec]. destruct ev as [s | a]; unfold frame, worker_pool.decode_frame;
    simpl packet_type; simpl marshal_event; cbv iota beta.
  - replace (Byte.eqb PACKET_TYPE_STATUS PACKET_TYPE_STATUS) with true
      by reflexivity.
    rewrite payload_frame, Hdec, gameStatus_protoStatus. reflexivity.
  - replace (Byte.eqb PACKET_TYPE_ATTACK PACKET_TYPE_STATUS) with false
      by reflexivity.
    replace (Byte.eqb PACKET_TYPE_ATTACK PACKET_TYPE_ATTACK) with true
      by reflexivity.
    rewrite payload_frame, Hdec, gameAttack_protoAttack. reflexivity.
Qed.

Lemma frame_body_no_delim (ev : InboundEvent) :
  is_carried ev -> ~ In BUFFER_DELIMITER (packet_type ev :: wire_payload ev).
Proof.
  intros [Hn _] [Htag | Hin]; [| contradiction].
  destruct ev; discriminate.
Qed.

Lemma encode_stream_cons (ev : InboundEvent) (evs : list InboundEvent) :
  wire_stream (ev :: evs)
  = (packet_type ev :: wire_payload ev)
      ++ BUFFER_DELIMITER :: wire_stream evs.
Proof.
  unfold encode_stream, frame.
  simpl. rewrite <- app_assoc. reflexivity.
Qed.

Lemma encode_stream_no_delim (evs : list InboundEvent) :
  ~ In BUFFER_DELIMITER (wire_stream evs) -> evs = [].
Proof.
  destruct evs as [| ev evs]; [reflexivity |]. intros Hn. exfalso. apply Hn.
  rewrite encode_stream_cons. apply in_or_app. right. left. reflexivity.
Qed.

(** The inner loop on a prefix [buf] of an encoded stream: it pushes the
    events of the frames that are complete in [buf] and leaves the
    unfinished tail, which holds no delimiter. *)
Lemma decode_all_stream (evs : list InboundEvent) :
  Forall is_carried evs ->
  forall buf later : list byte,
    buf ++ later = wire_stream evs ->
    exists evs1 evs2 buf',
      evs = evs1 ++ evs2 /\
      decode_all buf = (map Push evs1, Break buf') /\
      buf' ++ later = wire_stream evs2 /\
      ~ In BUFFER_DELIMITER buf'.
Proof.
  induction 1 as [| ev evs Hev Hevs IH]; intros buf later Heq.
  - destruct buf; [| discriminate]. exists [], [], [].
    split; [reflexivity |].
    split; [apply decode_all_no_delim; intros [] |].
    split; [exact Heq | intros []].
  - rewrite encode_stream_cons in Heq.
    pose proof (frame_body_no_delim ev Hev) as Hbody.
    set (body := packet_type ev :: wire_payload ev) in *.
    assert (Hshort : forall t, body = buf ++ t ->
              exists evs1 evs2 buf',
                ev :: evs = evs1 ++ evs2 /\
                decode_all buf = (map Push evs1, Break buf') /\
                buf' ++ later = wire_stream evs2 /\
                ~ In BUFFER_DELIMITER buf').
    { intros t Ht.
      assert (Hn : ~ In BUFFER_DELIMITER buf).
      { intros Hin. apply Hbody. rewrite Ht. apply in_or_app. left. exact Hin. }
      exists [], (ev :: evs), buf.
      split; [reflexivity |].
      split; [apply decode_all_no_delim; exact Hn |].
      split; [rewrite encode_stream_cons; exact Heq | exact Hn]. }
    apply app_eq_app in Heq. destruct Heq as [l [[Hb Hl] | [Hb Hl]]].
    + destruct l as [| c l].
      * apply (Hshort []). rewrite app_nil_r in *. symmetry. exact Hb.
      * simpl in Hl. injection Hl as <- Hl.
        destruct (IH l later (eq_sym Hl)) as (evs1 & evs2 & buf' & He & Hd & Hr & Hn).
        exists (ev :: evs1), evs2, buf'.
        split; [rewrite He; reflexivity |].
        split; [| split; assumption].
        rewrite Hb, decode_all_frame by exact Hbody.
        change (body ++ [BUFFER_DELIMITER]) with (wire_frame ev).
        rewrite (decode_frame_carried ev Hev), Hd. reflexivity.
    + apply (Hshort l). exact Hb.
Qed.

(** *** The outer loop on an undisturbed script *)

Lemma terminations_app (tr1 tr2 : list RecvEffect) :
  terminations (tr1 ++ tr2) = (terminations tr1 + terminations tr2)%nat.
Proof. unfold terminations. rewrite List.filter_app, length_app. reflexivity. Qed.

Lemma pushed_app (tr1 tr2 : list RecvEffect) :
  pushed (tr1 ++ tr2) = pushed tr1 ++ pushed tr2.
Proof.
  induction tr1 as [| e tr1 IH]; [reflexivity |].
  destruct e; simpl; rewrite ?IH; reflexivity.
Qed.

Lemma pushed_map_Push (evs : list InboundEvent) : pushed (map Push evs) = evs.
Proof. induction evs as [| ev evs IH]; simpl; congruence. Qed.

Lemma terminations_map_Push (evs : list InboundEvent) :
  terminations (map Push evs) = 0%nat.
Proof. induction evs as [| ev evs IH]; [reflexivity | exact IH]. Qed.

Lemma existsb_is_termination (tr : list RecvEffect) :
  terminations tr = 0%nat -> existsb is_termination tr = false.
Proof.
  unfold terminations. induction tr as [| e tr IH]; [reflexivity |].
  simpl. destruct (is_termination e); simpl; [discriminate | exact IH].
Qed.

Lemma receiver_loop_stream (script : list RecvReady) :
  Forall (fun r => undisturbed r = true) script ->
  forall (buf : list byte) (evs : list InboundEvent),
    Forall is_carried evs ->
    ~ In BUFFER_DELIMITER buf ->
    buf ++ stream_of script = wire_stream evs ->
    exists tr,
      receiver_loop script buf false = (tr, Running) /\
      pushed tr = evs /\
      terminations tr = 0%nat.
Proof.
  induction 1 as [| r script Hr Hscript IH]; intros buf evs Hevs Hbuf Heq.
  - simpl in Heq. rewrite app_nil_r in Heq. subst buf.
    apply encode_stream_no_delim in Hbuf. subst evs.
    exists []. repeat split.
  - destruct r as [ | | | rd]; try discriminate.
    + simpl in Heq. destruct (IH buf evs Hevs Hbuf Heq) as (tr & Hl & Hp & Ht).
      exists (HealthEcho :: tr). simpl. rewrite Hl. repeat split; assumption.
    + destruct rd as [data [[ | ] | ]]; simpl in Hr; try discriminate.
      * (* io.EOF: continue *)
        simpl in Heq. destruct (IH buf evs Hevs Hbuf Heq) as (tr & Hl & Hp & Ht).
        exists tr. simpl. rewrite Hl. repeat split; assumption.
      * (* an error-free read *)
        apply Nat.ltb_lt in Hr. simpl in Heq.
        cbn [worker_pool.receiver_loop rd_err rd_data].
        replace (BUFFER_SIZE <=? length data)%nat with false
          by (symmetry; apply Nat.leb_gt; exact Hr).
        destruct data as [| c data].
        -- simpl in *. destruct (IH buf evs Hevs Hbuf Heq) as (tr & Hl & Hp & Ht).
           exists tr. rewrite Hl. repeat split; assumption.
        -- replace (0 <? length (c :: data))%nat with true by reflexivity.
           rewrite app_assoc in Heq.
           destruct (decode_all_stream evs Hevs _ _ Heq)
             as (evs1 & evs2 & buf' & He & Hd & Hrest & Hn).
           rewrite Hd. cbn [app].
           assert (Hevs2 : Forall is_carried evs2).
           { rewrite He in Hevs. apply Forall_app in Hevs. tauto. }
           destruct (IH buf' evs2 Hevs2 Hn Hrest) as (tr & Hl & Hp & Ht).
           assert (Hnow : terminations (map Push evs1 ++ [ExtendDeadline]) = 0%nat).
           { rewrite terminations_app, terminations_map_Push. reflexivity. }
           rewrite (existsb_is_termination _ Hnow), Hl.
           exists ((map Push evs1 ++ [ExtendDeadline]) ++ tr). repeat split.
           ++ rewrite !pushed_app, pushed_map_Push, Hp, He. simpl.
              rewrite app_nil_r. reflexivity.
           ++ rewrite terminations_app, Hnow, Ht. reflexivity.
Qed.

(** *** Framing *)

(** C1 (amended). Take any sequence of Status/Attack events whose
    serialized payloads hold no delimiter byte and decode to the message
    they came from, frame each as type tag, payload, delimiter, and deliver
    the concatenation through any script of error-free reads that each stay
    below the read-buffer size, with liveness pings and end-of-stream reads
    anywhere in between.  Then the receiver pushes exactly the original
    events in their order, never sends the termination signal, and is
    still running. *)
Theorem framing_roundtrip (evs : list InboundEvent) (script : list RecvReady) :
  Forall is_carried evs ->
  Forall (fun r => undisturbed r = true) script ->
  stream_of script = wire_stream evs ->
  let r := ReceiveDataFromClient UnmarshalStatus UnmarshalAttack
                                 (accepted script) in
  pushed (fst r) = evs /\ terminations (fst r) = 0%nat /\ snd r = Running.
Proof.
  intros Hevs Hscript Hstream.
  destruct (receiver_loop_stream script Hscript [] evs Hevs (fun H => H) Hstream)
    as (tr & Hl & Hp & Ht).
  unfold ReceiveDataFromClient, accepted. cbn [accept_err deadline_err
    keepalive_err recv_script orb].
  rewrite Hl. unfold receiver_deferred. cbn [fst snd].
  repeat split; assumption.
Qed.

(** C9. A complete frame whose first byte is neither the Status nor the
    Attack tag, the lone delimiter included, is dropped: its [switch]
    produces no effect and no panic, the inner loop goes on with the bytes
    behind the frame exactly as if the frame had not been there, and a read
    that brings just this frame pushes nothing, sends no termination signal
    and leaves the receiver looping on an empty buffer. *)
Theorem unknown_packet_type_discarded (body rest : list byte) :
  ~ In BUFFER_DELIMITER body ->
  (forall tag, head body = Some tag ->
     tag <> PACKET_TYPE_STATUS /\ tag <> PACKET_TYPE_ATTACK) ->
  decode_frame (body ++ [BUFFER_DELIMITER]) = ([], false) /\
  decode_all (body ++ BUFFER_DELIMITER :: rest) = decode_all rest /\
  forall script,
    (length (body ++ [BUFFER_DELIMITER]) < BUFFER_SIZE)%nat ->
    receiver_loop (read_ok (body ++ [BUFFER_DELIMITER]) :: script) [] false
    = (ExtendDeadline :: fst (receiver_loop script [] false),
       snd (receiver_loop script [] false)).
Proof.
  intros Hn Htag.
  assert (Hf : decode_frame (body ++ [BUFFER_DELIMITER]) = ([], false)).
  { destruct body as [| tag body]; [reflexivity |].
    destruct (Htag tag eq_refl) as [Hs Ha].
    unfold worker_pool.decode_frame. cbn [app].
    rewrite (proj2 (byte_eqb_neq _ _) Hs), (proj2 (byte_eqb_neq _ _) Ha).
    reflexivity. }
  assert (Hall : forall rest', decode_all (body ++ BUFFER_DELIMITER :: rest')
                               = decode_all rest').
  { intros rest'. rewrite decode_all_frame, Hf by exact Hn.
    destruct (decode_all rest'). reflexivity. }
  split; [exact Hf |]. split; [apply Hall |].
  intros script Hsize. unfold read_ok.
  cbn [worker_pool.receiver_loop rd_err rd_data].
  rewrite (proj2 (Nat.leb_gt _ _) Hsize).
  replace (0 <? length (body ++ [BUFFER_DELIMITER]))%nat with true
    by (symmetry; apply Nat.ltb_lt; rewrite length_app; simpl; lia).
  change ([] ++ body ++ [BUFFER_DELIMITER]) with (body ++ BUFFER_DELIMITER :: []).
  rewrite Hall, (decode_all_no_delim []) by (intros []).
  cbn [app existsb is_termination orb].
  destruct (receiver_loop script [] false) as [tr o]. reflexivity.
Qed.

(** *** The size guard *)


(** *** Read errors and decode failures *)

(** A read error other than [io.EOF] sends the termination signal before
    anything else. *)
Lemma read_error_sends_termination
      (script : list RecvReady) (buf data : list byte) :
  exists tr,
    fst (receiver_loop
           (RDefault {| rd_data := data; rd_err := Some OtherReadError |}
              :: script) buf false)
    = Termination :: tr.
Proof.
  cbn [worker_pool.receiver_loop rd_err rd_data].
  destruct (BUFFER_SIZE <=? length data)%nat, (0 <? length data)%nat;
    cbn [app].
  all: try (destruct (decode_all (buf ++ data)) as [tr [buf' |]]).
  all: try (destruct (receiver_loop script _ _) as [tr' o]).
  all: eexists; reflexivity.
Qed.

(** A read that reports [io.EOF] has no effect: the loop goes on with the
    same buffer, and the termination signal is not sent. *)
Lemma eof_read_is_skipped
      (script : list RecvReady) (buf data : list byte) :
  receiver_loop (RDefault {| rd_data := data; rd_err := Some EOF |} :: script)
                buf false
  = receiver_loop script buf false.
Proof. reflexivity. Qed.

(** A Status or Attack frame whose payload fails to decode sends the
    termination signal first. *)
Lemma decode_failure_sends_termination (tag : byte) (p : list byte) :
  (tag = PACKET_TYPE_STATUS /\ snd (UnmarshalStatus p) = true) \/
  (tag = PACKET_TYPE_ATTACK /\ snd (UnmarshalAttack p) = true) ->
  exists tr,
    fst (decode_frame (tag :: p ++ [BUFFER_DELIMITER])) = Termination :: tr.
Proof.
  intros [[-> Hf] | [-> Hf]]; unfold worker_pool.decode_frame;
    rewrite payload_frame.
  - replace (Byte.eqb PACKET_TYPE_STATUS PACKET_TYPE_STATUS) with true
      by reflexivity.
    destruct (UnmarshalStatus p) as [m failed]. simpl in Hf. subst failed.
    destruct (gameStatus m); eexists; reflexivity.
  - replace (Byte.eqb PACKET_TYPE_ATTACK PACKET_TYPE_STATUS) with false
      by reflexivity.
    replace (Byte.eqb PACKET_TYPE_ATTACK PACKET_TYPE_ATTACK) with true
      by reflexivity.
    destruct (UnmarshalAttack p) as [m failed]. simpl in Hf. subst failed.
    destruct (gameAttack m); eexists; reflexivity.
Qed.

End ReceiverFacts.

(** ** The wire format round trip *)

Lemma to_N_byte_of_N (n : N) : (n < 256)%N -> Byte.to_N (proto.byte_of_N n) = n.
Proof.
  intros Hn. unfold proto.byte_of_N.
  destruct (Byte.of_N n) as [b |] eqn:E.
  - apply Byte.to_of_N. exact E.
  - pose proof (Byte.to_of_N_option_map n) as H. rewrite E in H. simpl in H.
    destruct (N.leb_spec n 255); [discriminate | lia].
Qed.

Lemma AppendVarint_from_S (fuel : nat) (v : N) :
  proto.AppendVarint_from (S fuel) v
  = if (v <? 128)%N then [proto.byte_of_N v]
    else proto.byte_of_N (v mod 128 + 128)
           :: proto.AppendVarint_from fuel (v / 128).
Proof. reflexivity. Qed.

Lemma ConsumeVarint_from_cons (fuel : nat) (shift : N) (c : byte) (b : list byte) :
  proto.ConsumeVarint_from (S fuel) shift (c :: b)
  = if (Byte.to_N c <? 128)%N then Some ((Byte.to_N c * 2 ^ shift)%N, b)
    else match proto.ConsumeVarint_from fuel (shift + 7) b with
         | Some (v, rest) => Some (((Byte.to_N c - 128) * 2 ^ shift + v)%N, rest)
         | None => None
         end.
Proof. reflexivity. Qed.

Lemma varint_from_roundtrip (fuel : nat) :
  forall (v shift : N) (rest : list byte),
    (v < 2 ^ (7 * N.of_nat (S fuel)))%N ->
    proto.ConsumeVarint_from (S fuel) shift
      (proto.AppendVarint_from (S fuel) v ++ rest)
    = Some ((v * 2 ^ shift)%N, rest).
Proof.
  induction fuel as [| fuel IH]; intros v shift rest Hv;
    rewrite AppendVarint_from_S.
  - change (2 ^ (7 * N.of_nat 1))%N with 128%N in Hv.
    rewrite (proj2 (N.ltb_lt _ _) Hv). cbn [app].
    rewrite ConsumeVarint_from_cons, to_N_byte_of_N by lia.
    rewrite (proj2 (N.ltb_lt _ _) Hv). reflexivity.
  - destruct (N.ltb_spec v 128) as [Hs | Hl]; cbn [app];
      rewrite ConsumeVarint_from_cons.
    + rewrite to_N_byte_of_N by lia.
      rewrite (proj2 (N.ltb_lt _ _) Hs). reflexivity.
    + assert (Hm : (v mod 128 < 128)%N) by (apply N.mod_lt; lia).
      rewrite to_N_byte_of_N by lia.
      replace (v mod 128 + 128 <? 128)%N with false
        by (symmetry; apply N.ltb_ge, N.le_add_l).
      rewrite IH.
      * f_equal. f_equal. rewrite N.pow_add_r.
        change (2 ^ 7)%N with 128%N.
        pose proof (N.div_mod v 128 ltac:(discriminate)) as Hd.
        set (q := (v / 128)%N) in *. set (r := (v mod 128)%N) in *.
        rewrite Hd, N.add_sub. ring.
      * replace (7 * N.of_nat (S (S fuel)))%N
          with (7 * N.of_nat (S fuel) + 7)%N in Hv
          by (rewrite (Nat2N.inj_succ (S fuel)), N.mul_succ_r; reflexivity).
        rewrite N.pow_add_r in Hv. change (2 ^ 7)%N with 128%N in Hv.
        apply N.Div0.div_lt_upper_bound. rewrite N.mul_comm. exact Hv.
Qed.

Lemma ConsumeVarint_AppendVarint (v : N) (rest : list byte) :
  (v < 2 ^ 64)%N ->
  proto.ConsumeVarint (proto.AppendVarint v ++ rest) = Some (v, rest).
Proof.
  intros Hv. unfold proto.ConsumeVarint, proto.AppendVarint.
  rewrite N.mod_small by exact Hv.
  rewrite varint_from_roundtrip.
  - rewrite N.mul_1_r. rewrite (proj2 (N.ltb_lt _ _) Hv). reflexivity.
  - eapply N.lt_trans; [exact Hv |]. reflexivity.
Qed.

Lemma int32_roundtrip (x : Z) :
  int32_range x ->
  proto.int32_of_uint64 (proto.uint64_of_int32 x) = x /\
  (proto.uint64_of_int32 x < 2 ^ 64)%N.
Proof.
  unfold int32_range, proto.int32_of_uint64, proto.uint64_of_int32, int32.
  intros Hx.
  assert (Hm : 0 <= x mod 2 ^ 64 < 2 ^ 64) by (apply Z.mod_pos_bound; reflexivity).
  rewrite Z2N.id by lia. split.
  - change (2 ^ 64) with (2 ^ 32 * 2 ^ 32) in *.
    change (2 ^ 31) with 2147483648 in *. change (2 ^ 32) with 4294967296 in *.
    destruct (Z_lt_le_dec x 0) as [Hneg | Hpos].
    + replace (x mod (4294967296 * 4294967296))
        with (x + 4294967296 * 4294967296).
      * replace (x + 4294967296 * 4294967296 + 2147483648)
          with (x + 2147483648 + 4294967296 * 4294967296) by ring.
        rewrite Z_mod_plus_full, Z.mod_small; lia.
      * apply Z.mod_unique_pos with (q := -1); lia.
    + rewrite (Z.mod_small x) by lia. rewrite Z.mod_small; lia.
  - change (2 ^ 64)%N with (Z.to_N (2 ^ 64)). apply Z2N.inj_lt; lia.
Qed.

Lemma ConsumeVarint_small (c : byte) (b : list byte) :
  (Byte.to_N c < 128)%N -> proto.ConsumeVarint (c :: b) = Some (Byte.to_N c, b).
Proof.
  intros Hc. unfold proto.ConsumeVarint.
  rewrite ConsumeVarint_from_cons, (proj2 (N.ltb_lt _ _) Hc).
  rewrite N.pow_0_r, N.mul_1_r.
  replace (Byte.to_N c <? 2 ^ 64)%N with true; [reflexivity |].
  symmetry. apply N.ltb_lt. eapply N.lt_trans; [exact Hc | reflexivity].
Qed.

(** A varint field with a one-byte tag. *)
Lemma ConsumeField_varint (tag : byte) (num v : N) (rest : list byte) :
  Byte.to_N tag = (8 * num)%N -> (0 < num < 16)%N -> (v < 2 ^ 64)%N ->
  proto.ConsumeField (tag :: proto.AppendVarint v ++ rest)
  = Some (num, proto.VarintV v, rest).
Proof.
  intros Htag Hnum Hv. unfold proto.ConsumeField.
  rewrite ConsumeVarint_small by (rewrite Htag; lia).
  rewrite Htag.
  replace (8 * num / 8)%N with num
    by (rewrite N.mul_comm, N.div_mul; [reflexivity | discriminate]).
  replace (8 * num mod 8)%N with 0%N
    by (rewrite N.mul_comm, N.Div0.mod_mul; reflexivity).
  replace (num =? 0)%N with false by (symmetry; apply N.eqb_neq; lia).
  replace (536870911 <? num)%N with false by (symmetry; apply N.ltb_ge; lia).
  cbn [orb]. rewrite ConsumeVarint_AppendVarint by exact Hv. reflexivity.
Qed.

(** A length-delimited field with a one-byte tag. *)
Lemma ConsumeField_bytes (tag : byte) (num : N) (bs rest : list byte) :
  Byte.to_N tag = (8 * num + 2)%N -> (0 < num < 16)%N ->
  (N.of_nat (length bs) < 2 ^ 64)%N ->
  proto.ConsumeField
    (tag :: proto.AppendVarint (N.of_nat (length bs)) ++ bs ++ rest)
  = Some (num, proto.BytesV bs, rest).
Proof.
  intros Htag Hnum Hlen. unfold proto.ConsumeField.
  rewrite ConsumeVarint_small by (rewrite Htag; lia).
  rewrite Htag.
  replace ((8 * num + 2) / 8)%N with num.
  2:{ apply N.div_unique with (r := 2%N); [reflexivity | ring]. }
  replace ((8 * num + 2) mod 8)%N with 2%N.
  2:{ apply N.mod_unique with (q := num); [reflexivity | ring]. }
  replace (num =? 0)%N with false by (symmetry; apply N.eqb_neq; lia).
  replace (536870911 <? num)%N with false by (symmetry; apply N.ltb_ge; lia).
  cbn [orb]. rewrite ConsumeVarint_AppendVarint by exact Hlen.
  replace (N.of_nat (length bs) <=? N.of_nat (length (bs ++ rest)))%N with true.
  2:{ symmetry. apply N.leb_le. rewrite length_app. lia. }
  rewrite Nat2N.id, take_app_length, drop_app_length. reflexivity.
Qed.

Lemma length_AppendVarint_from (fuel : nat) :
  forall v, (length (proto.AppendVarint_from fuel v) <= fuel)%nat.
Proof.
  induction fuel as [| fuel IH]; intros v; [reflexivity |].
  rewrite AppendVarint_from_S. destruct (v <? 128)%N; simpl.
  - lia.
  - specialize (IH (v / 128)%N). lia.
Qed.

Lemma length_MarshalPosition (p : protodef.Position) :
  (length (proto.MarshalPosition p) <= 22)%nat.
Proof.
  unfold proto.MarshalPosition, proto.AppendVarint.
  pose proof (length_AppendVarint_from 10
                (proto.uint64_of_int32 (protodef.X p) mod 2 ^ 64)%N).
  pose proof (length_AppendVarint_from 10
                (proto.uint64_of_int32 (protodef.Y p) mod 2 ^ 64)%N).
  rewrite length_app.
  destruct (protodef.X p =? 0), (protodef.Y p =? 0); cbn [length]; lia.
Qed.

Lemma UnmarshalPosition_from_nil (fuel : nat) (m : protodef.Position) :
  proto.UnmarshalPosition_from fuel [] m = (m, false).
Proof. destruct fuel; reflexivity. Qed.

Lemma UnmarshalPosition_from_X (fuel : nat) (v : N) (rest : list byte)
      (m : protodef.Position) :
  (v < 2 ^ 64)%N ->
  proto.UnmarshalPosition_from (S fuel) (x08 :: proto.AppendVarint v ++ rest) m
  = proto.UnmarshalPosition_from fuel rest
      {| protodef.X := proto.int32_of_uint64 v; protodef.Y := protodef.Y m |}.
Proof.
  intros Hv. cbn [proto.UnmarshalPosition_from].
  rewrite (ConsumeField_varint x08 1 v rest) by (try reflexivity; try exact Hv; lia).
  reflexivity.
Qed.

Lemma UnmarshalPosition_from_Y (fuel : nat) (v : N) (rest : list byte)
      (m : protodef.Position) :
  (v < 2 ^ 64)%N ->
  proto.UnmarshalPosition_from (S fuel) (x10 :: proto.AppendVarint v ++ rest) m
  = proto.UnmarshalPosition_from fuel rest
      {| protodef.X := protodef.X m; protodef.Y := proto.int32_of_uint64 v |}.
Proof.
  intros Hv. cbn [proto.UnmarshalPosition_from].
  rewrite (ConsumeField_varint x10 2 v rest) by (try reflexivity; try exact Hv; lia).
  reflexivity.
Qed.

Lemma mergePosition_MarshalPosition (p : game.Position) :
  position_ok p ->
  proto.mergePosition None (proto.MarshalPosition (protoPosition p))
  = (protoPosition p, false).
Proof.
  intros [Hx Hy]. unfold proto.mergePosition, proto.MarshalPosition.
  destruct p as [x y]. unfold protoPosition. cbn [game.X game.Y protodef.X protodef.Y] in *.
  destruct (int32_roundtrip x Hx) as [Hrx Hbx].
  destruct (int32_roundtrip y Hy) as [Hry Hby].
  destruct (Z.eqb_spec x 0) as [-> | Hx0], (Z.eqb_spec y 0) as [-> | Hy0];
    cbn [app length].
  - reflexivity.
  - rewrite <- (app_nil_r (proto.AppendVarint (proto.uint64_of_int32 y))).
    rewrite UnmarshalPosition_from_Y, UnmarshalPosition_from_nil by exact Hby.
    rewrite Hry. reflexivity.
  - rewrite UnmarshalPosition_from_X, UnmarshalPosition_from_nil by exact Hbx.
    rewrite Hrx. reflexivity.
  - rewrite length_app. cbn [length]. rewrite Nat.add_succ_r.
    rewrite UnmarshalPosition_from_X by exact Hbx.
    rewrite <- (app_nil_r (proto.AppendVarint (proto.uint64_of_int32 y))).
    rewrite UnmarshalPosition_from_Y, UnmarshalPosition_from_nil by exact Hby.
    rewrite Hrx, Hry. reflexivity.
Qed.

Lemma length_AppendVarint_pos (v : N) : (1 <= length (proto.AppendVarint v))%nat.
Proof.
  unfold proto.AppendVarint. rewrite AppendVarint_from_S.
  destruct (_ <? 128)%N; simpl; lia.
Qed.

Lemma length_MarshalSubmessage (tag : byte) (p : protodef.Position) :
  (2 <= length (proto.MarshalSubmessage tag (Some p)))%nat.
Proof.
  unfold proto.MarshalSubmessage. cbn [length]. rewrite length_app.
  pose proof (length_AppendVarint_pos
                (N.of_nat (length (proto.MarshalPosition p)))). lia.
Qed.

Lemma MarshalPosition_fits (p : protodef.Position) :
  (N.of_nat (length (proto.MarshalPosition p)) < 2 ^ 64)%N.
Proof.
  pose proof (length_MarshalPosition p) as H.
  eapply N.le_lt_trans with (m := 22%N); [lia | reflexivity].
Qed.

(** A string field, and what is left of the message after it. *)
Lemma MarshalString_app (tag : byte) (s : string) (rest : list byte) :
  proto.MarshalString tag s ++ rest
  = if proto.is_nil (String.list_byte_of_string s) then rest
    else tag :: proto.AppendVarint
                  (N.of_nat (length (String.list_byte_of_string s)))
             ++ String.list_byte_of_string s ++ rest.
Proof.
  unfold proto.MarshalString.
  destruct (proto.is_nil (String.list_byte_of_string s)); [reflexivity |].
  rewrite <- app_comm_cons, <- app_assoc. reflexivity.
Qed.

Lemma MarshalSubmessage_app (tag : byte) (p : protodef.Position) (rest : list byte) :
  proto.MarshalSubmessage tag (Some p) ++ rest
  = tag :: proto.AppendVarint (N.of_nat (length (proto.MarshalPosition p)))
        ++ proto.MarshalPosition p ++ rest.
Proof.
  unfold proto.MarshalSubmessage. rewrite <- app_comm_cons, <- app_assoc.
  reflexivity.
Qed.

Lemma is_nil_list_byte_of_string (s : string) :
  proto.is_nil (String.list_byte_of_string s) = true -> s = "".
Proof.
  intros H. rewrite <- (String.string_of_list_byte_of_string s).
  destruct (String.list_byte_of_string s); [reflexivity | discriminate].
Qed.

(** *** Status *)

Lemma UnmarshalStatus_from_nil (fuel : nat) (m : protodef.Status) :
  proto.UnmarshalStatus_from fuel [] m = (m, false).
Proof. destruct fuel; reflexivity. Qed.

Lemma UnmarshalStatus_from_Id (fuel : nat) (s : string) (rest : list byte)
      (m : protodef.Status) :
  id_ok s ->
  proto.UnmarshalStatus_from (S fuel)
    (x0a :: proto.AppendVarint (N.of_nat (length (String.list_byte_of_string s)))
         ++ String.list_byte_of_string s ++ rest) m
  = proto.UnmarshalStatus_from fuel rest
      {| protodef.Id := s;
         protodef.CurrentPosition := protodef.CurrentPosition m |}.
Proof.
  intros Hs. cbn [proto.UnmarshalStatus_from].
  rewrite (ConsumeField_bytes x0a 1) by (try reflexivity; try exact Hs; lia).
  rewrite String.string_of_list_byte_of_string. reflexivity.
Qed.

Lemma UnmarshalStatus_from_CurrentPosition
      (fuel : nat) (p : game.Position) (rest : list byte) (id : string) :
  position_ok p ->
  proto.UnmarshalStatus_from (S fuel)
    (proto.MarshalSubmessage x12 (Some (protoPosition p)) ++ rest)
    {| protodef.Id := id; protodef.CurrentPosition := None |}
  = proto.UnmarshalStatus_from fuel rest
      {| protodef.Id := id;
         protodef.CurrentPosition := Some (protoPosition p) |}.
Proof.
  intros Hp. rewrite MarshalSubmessage_app. cbn [proto.UnmarshalStatus_from].
  rewrite (ConsumeField_bytes x12 2)
    by (try reflexivity; try apply MarshalPosition_fits; lia).
  cbn [protodef.CurrentPosition protodef.Id].
  rewrite (mergePosition_MarshalPosition p Hp). reflexivity.
Qed.

Lemma UnmarshalStatus_MarshalStatus (s : game.Status) :
  id_ok (game.Id s) -> position_ok (game.CurrentPosition s) ->
  proto.UnmarshalStatus (proto.MarshalStatus (protoStatus s))
  = (protoStatus s, false).
Proof.
  intros Hid Hp. unfold proto.UnmarshalStatus, proto.MarshalStatus.
  destruct s as [id p]. unfold protoStatus.
  cbn [game.Id game.CurrentPosition protodef.Id protodef.CurrentPosition] in *.
  pose proof (length_MarshalSubmessage x12 (protoPosition p)) as Hlen.
  set (sub := proto.MarshalSubmessage x12 (Some (protoPosition p))) in *.
  rewrite length_app, MarshalString_app.
  unfold proto.MarshalString.
  destruct (proto.is_nil (String.list_byte_of_string id)) eqn:E.
  - apply is_nil_list_byte_of_string in E. subst id. cbn [length Nat.add].
    destruct (length sub) as [| fuel] eqn:El; [lia |].
    unfold sub. rewrite <- (app_nil_r (proto.MarshalSubmessage _ _)).
    rewrite UnmarshalStatus_from_CurrentPosition by exact Hp.
    apply UnmarshalStatus_from_nil.
  - cbn [length Nat.add].
    destruct (length sub) as [| fuel] eqn:El; [lia |].
    rewrite Nat.add_succ_r.
    rewrite UnmarshalStatus_from_Id by exact Hid.
    unfold sub. rewrite <- (app_nil_r (proto.MarshalSubmessage _ _)).
    rewrite UnmarshalStatus_from_CurrentPosition by exact Hp.
    apply UnmarshalStatus_from_nil.
Qed.

(** *** Attack *)

Lemma UnmarshalAttack_from_nil (fuel : nat) (m : protodef.Attack) :
  proto.UnmarshalAttack_from fuel [] m = (m, false).
Proof. destruct fuel; reflexivity. Qed.

Lemma UnmarshalAttack_from_UserId (fuel : nat) (s : string) (rest : list byte)
      (m : protodef.Attack) :
  id_ok s ->
  proto.UnmarshalAttack_from (S fuel)
    (x0a :: proto.AppendVarint (N.of_nat (length (String.list_byte_of_string s)))
         ++ String.list_byte_of_string s ++ rest) m
  = proto.UnmarshalAttack_from fuel rest
      {| protodef.UserId := s;
         protodef.UserPosition := protodef.UserPosition m;
         protodef.AttackPosition := protodef.AttackPosition m |}.
Proof.
  intros Hs. cbn [proto.UnmarshalAttack_from].
  rewrite (ConsumeField_bytes x0a 1) by (try reflexivity; try exact Hs; lia).
  rewrite String.string_of_list_byte_of_string. reflexivity.
Qed.

Lemma UnmarshalAttack_from_UserPosition
      (fuel : nat) (p : game.Position) (rest : list byte) (id : string) :
  position_ok p ->
  proto.UnmarshalAttack_from (S fuel)
    (proto.MarshalSubmessage x12 (Some (protoPosition p)) ++ rest)
    {| protodef.UserId := id; protodef.UserPosition := None;
       protodef.AttackPosition := None |}
  = proto.UnmarshalAttack_from fuel rest
      {| protodef.UserId := id;
         protodef.UserPosition := Some (protoPosition p);
         protodef.AttackPosition := None |}.
Proof.
  intros Hp. rewrite MarshalSubmessage_app. cbn [proto.UnmarshalAttack_from].
  rewrite (ConsumeField_bytes x12 2)
    by (try reflexivity; try apply MarshalPosition_fits; lia).
  cbn [protodef.UserPosition protodef.AttackPosition protodef.UserId].
  rewrite (mergePosition_MarshalPosition p Hp). reflexivity.
Qed.

Lemma UnmarshalAttack_from_AttackPosition
      (fuel : nat) (p : game.Position) (rest : list byte) (id : string)
      (u : option protodef.Position) :
  position_ok p ->
  proto.UnmarshalAttack_from (S fuel)
    (proto.MarshalSubmessage x1a (Some (protoPosition p)) ++ rest)
    {| protodef.UserId := id; protodef.UserPosition := u;
       protodef.AttackPosition := None |}
  = proto.UnmarshalAttack_from fuel rest
      {| protodef.UserId := id;
         protodef.UserPosition := u;
         protodef.AttackPosition := Some (protoPosition p) |}.
Proof.
  intros Hp. rewrite MarshalSubmessage_app. cbn [proto.UnmarshalAttack_from].
  rewrite (ConsumeField_bytes x1a 3)
    by (try reflexivity; try apply MarshalPosition_fits; lia).
  cbn [protodef.UserPosition protodef.AttackPosition protodef.UserId].
  rewrite (mergePosition_MarshalPosition p Hp). reflexivity.
Qed.

Lemma UnmarshalAttack_MarshalAttack (a : game.Attack) :
  id_ok (game.UserId a) ->
  position_ok (game.UserPosition a) ->
  position_ok (game.AttackPosition a) ->
  proto.UnmarshalAttack (proto.MarshalAttack (protoAttack a))
  = (protoAttack a, false).
Proof.
  intros Hid Hu Ha. unfold proto.UnmarshalAttack, proto.MarshalAttack.
  destruct a as [id u t]. unfold protoAttack.
  cbn [game.UserId game.UserPosition game.AttackPosition
       protodef.UserId protodef.UserPosition protodef.AttackPosition] in *.
  pose proof (length_MarshalSubmessage x12 (protoPosition u)) as Hlu.
  pose proof (length_MarshalSubmessage x1a (protoPosition t)) as Hlt.
  set (subu := proto.MarshalSubmessage x12 (Some (protoPosition u))) in *.
  set (subt := proto.MarshalSubmessage x1a (Some (protoPosition t))) in *.
  rewrite !length_app, MarshalString_app.
  unfold proto.MarshalString.
  destruct (proto.is_nil (String.list_byte_of_string id)) eqn:E.
  - apply is_nil_list_byte_of_string in E. subst id. cbn [length Nat.add].
    destruct (length subu) as [| fu] eqn:Eu; [lia |].
    destruct (length subt) as [| ft] eqn:Et; [lia |].
    cbn [Nat.add]. rewrite Nat.add_succ_r.
    unfold subu. rewrite UnmarshalAttack_from_UserPosition by exact Hu.
    unfold subt. rewrite <- (app_nil_r (proto.MarshalSubmessage x1a _)).
    rewrite UnmarshalAttack_from_AttackPosition by exact Ha.
    apply UnmarshalAttack_from_nil.
  - cbn [length Nat.add].
    destruct (length subu) as [| fu] eqn:Eu; [lia |].
    destruct (length subt) as [| ft] eqn:Et; [lia |].
    cbn [Nat.add]. rewrite !Nat.add_succ_r.
    rewrite UnmarshalAttack_from_UserId by exact Hid.
    unfold subu.
    cbn [protodef.UserPosition protodef.AttackPosition].
    rewrite UnmarshalAttack_from_UserPosition by exact Hu.
    unfold subt. rewrite <- (app_nil_r (proto.MarshalSubmessage x1a _)).
    rewrite UnmarshalAttack_from_AttackPosition by exact Ha.
    apply UnmarshalAttack_from_nil.
Qed.

(** ** The receiver on protobuf payloads *)

(** With the wire format of [proto], a message in range is carried by the
    framing as soon as its payload holds no delimiter byte. *)
Lemma carried_proto (ev : InboundEvent) :
  wire_ok ev ->
  ~ In BUFFER_DELIMITER
       (marshal_event proto.MarshalStatus proto.MarshalAttack ev) ->
  carried proto.MarshalStatus proto.MarshalAttack
          proto.UnmarshalStatus proto.UnmarshalAttack ev.
Proof.
  intros Hok Hn. split; [exact Hn |]. destruct ev as [s | a].
  - destruct Hok as [Hid Hp]. apply UnmarshalStatus_MarshalStatus; assumption.
  - destruct Hok as (Hid & Hu & Ha).
    apply UnmarshalAttack_MarshalAttack; assumption.
Qed.

(** The round trip with protobuf payloads: events in range whose payloads
    hold no delimiter byte come out of the receiver as they went in. *)
Lemma framing_roundtrip_proto (evs : list InboundEvent) (script : list RecvReady) :
  Forall wire_ok evs ->
  Forall (fun ev => ~ In BUFFER_DELIMITER
                         (marshal_event proto.MarshalStatus proto.MarshalAttack ev))
         evs ->
  Forall (fun r => undisturbed r = true) script ->
  stream_of script = wire evs ->
  pushed (fst (receive script)) = evs /\
  terminations (fst (receive script)) = 0%nat /\
  snd (receive script) = Running.
Proof.
  intros Hok Hn Hscript Hstream.
  assert (Hevs : Forall (carried proto.MarshalStatus proto.MarshalAttack
                                 proto.UnmarshalStatus proto.UnmarshalAttack) evs).
  { apply List.Forall_forall. intros ev Hev. apply carried_proto.
    - rewrite List.Forall_forall in Hok. apply Hok. exact Hev.
    - rewrite List.Forall_forall in Hn. apply Hn. exact Hev. }
  destruct (receiver_loop_stream
              proto.UnmarshalStatus proto.UnmarshalAttack
              proto.MarshalStatus proto.MarshalAttack
              script Hscript [] evs Hevs (fun H => H) Hstream)
    as (tr & Hl & Hp & Ht).
  unfold receive, ReceiveDataFromClient, accepted.
  cbn [accept_err deadline_err keepalive_err recv_script orb].
  rewrite Hl. unfold receiver_deferred. cbn [fst snd].
  repeat split; assumption.
Qed.

(** A decidable way to see that a byte string holds no delimiter. *)
Lemma not_In_delimiter (l : list byte) :
  existsb (Byte.eqb BUFFER_DELIMITER) l = false -> ~ In BUFFER_DELIMITER l.
Proof.
  intros H Hin. rewrite <- not_true_iff_false in H. apply H.
  apply existsb_exists. exists BUFFER_DELIMITER. split; [exact Hin |].
  apply byte_eqb_eq. reflexivity.
Qed.

(** The round trip at three events, delivered five bytes a read after a
    liveness ping and an end-of-stream read. *)
Lemma framing_roundtrip_witness :
  let evs := [status_event "ann" 1 2; attack_event "bob" 0 0 (-3) 300;
              status_event "ann" 2 2] in
  let script :=
    RHealth
      :: RDefault {| rd_data := []; rd_err := Some EOF |}
      :: reads_of 100 5 (wire evs) in
  pushed (fst (receive script)) = evs /\
  terminations (fst (receive script)) = 0%nat /\
  snd (receive script) = Running.
Proof.
  intros evs script.
  apply (framing_roundtrip proto.UnmarshalStatus proto.UnmarshalAttack
                           proto.MarshalStatus proto.MarshalAttack evs script).
  - repeat (apply List.Forall_cons;
            [split; [apply not_In_delimiter |]; vm_compute; reflexivity |]).
    apply List.Forall_nil.
  - apply List.Forall_forall. intros r Hr.
    assert (Hs : forallb undisturbed script = true) by (vm_compute; reflexivity).
    rewrite forallb_forall in Hs. apply Hs. exact Hr.
  - vm_compute. reflexivity.
Defined.

(** C1 as stated fails: nothing keeps the delimiter byte out of a payload.
    A user id that holds the character '$', or a coordinate equal to 36, puts
    the byte 0x24 into the serialized message; the receiver cuts the frame
    there, the truncated payload fails to decode, and no event is pushed. *)
Lemma framing_roundtrip_fails_on_delimiter_in_payload :
  let by_id := [status_event "p$1" 1 2] in
  let by_coordinate := [status_event "ann" 36 7] in
  proto.UnmarshalStatus
    (proto.MarshalStatus
       (protoStatus {| game.Id := "p$1";
                       game.CurrentPosition := {| game.X := 1; game.Y := 2 |} |}))
  = (protoStatus {| game.Id := "p$1";
                    game.CurrentPosition := {| game.X := 1; game.Y := 2 |} |},
     false) /\
  pushed (fst (receive [read_ok (wire by_id)])) <> by_id /\
  pushed (fst (receive [read_ok (wire by_coordinate)])) <> by_coordinate /\
  receive [read_ok (wire by_id)]
  = ([InitDone; Termination; ConnClose; Termination; ListenerClose], Panicked).
Proof.
  vm_compute. repeat split; discriminate.
Qed.

(** A read that fills the read buffer ends the session even when every frame
    in it is short and well formed: the 316 thirteen-byte frames below make
    two reads, the first of 4096 bytes; the events of the second read are
    never pushed. *)
Lemma full_read_of_small_frames_terminates :
  let evs := repeat (status_event "ann" 1 2) 316 in
  let r := receive (reads_of 100 4096 (wire evs)) in
  length (wire evs) = 4108%nat /\
  terminations (fst r) = 2%nat /\
  length (pushed (fst r)) = 315%nat /\
  snd r = Returned.
Proof. vm_compute. repeat split. Qed.

(** Two frames of unknown type, the second the lone delimiter, in front of
    a Status frame; and a read that brings the lone delimiter. *)
Lemma unknown_packet_type_discarded_witness :
  worker_pool.decode_all proto.UnmarshalStatus proto.UnmarshalAttack
    ([x07; x41] ++ BUFFER_DELIMITER :: BUFFER_DELIMITER
       :: wire [status_event "bob" 1 2])
  = ([Push (status_event "bob" 1 2)], Break []) /\
  receive [read_ok [BUFFER_DELIMITER]] = ([InitDone; ExtendDeadline], Running).
Proof.
  pose proof (unknown_packet_type_discarded
                proto.UnmarshalStatus proto.UnmarshalAttack
                [x07; x41] (BUFFER_DELIMITER :: wire [status_event "bob" 1 2]))
    as H1.
  pose proof (unknown_packet_type_discarded
                proto.UnmarshalStatus proto.UnmarshalAttack
                [] (wire [status_event "bob" 1 2])) as H2.
  destruct H1 as (_ & H1 & _).
  { apply not_In_delimiter. reflexivity. }
  { intros tag Htag. injection Htag as <-. split; discriminate. }
  destruct H2 as (_ & H2 & H3).
  { intros []. }
  { intros tag Htag. discriminate. }
  split.
  - rewrite H1. cbn [app] in H2. rewrite H2. vm_compute. reflexivity.
  - unfold receive, ReceiveDataFromClient, accepted.
    cbn [accept_err deadline_err keepalive_err recv_script orb].
    cbn [app] in H3. rewrite H3; [reflexivity |].
    unfold BUFFER_SIZE. simpl. lia.
Defined.



(** C6, the code at a failing input: a read brings [malformed_frame]
    followed by a well-formed Status frame.  Decoding the first payload
    fails and the termination signal is sent, but the loop carries on: it
    pushes an event built from the half-decoded message, then decodes and
    pushes the second frame and extends the read deadline.  The receiver
    stops only at its next [select]. *)
Theorem receiver_keeps_decoding_after_decode_failure :
  let good := status_event "bob" 1 2 in
  snd (proto.UnmarshalStatus [x12; x00; x0a; x05; x61]) = true /\
  receive [read_ok (malformed_frame ++ wire [good])]
  = ([InitDone; Termination;
      Push (status_event "" 0 0); Push good; ExtendDeadline], Running) /\
  receive [read_ok (malformed_frame ++ wire [good]); read_ok (wire [good])]
  = ([InitDone; Termination;
      Push (status_event "" 0 0); Push good; ExtendDeadline;
      ConnClose; Termination; ListenerClose], Returned).
Proof. vm_compute. repeat split. Qed.

(** A payload that fails before any position is read ends in a nil
    dereference: the receiver panics right after sending the signal. *)
Lemma receiver_panics_after_decode_failure :
  receive [read_ok ([x00; xff; x24] ++ wire [status_event "bob" 1 2])]
  = ([InitDone; Termination; ConnClose; Termination; ListenerClose], Panicked).
Proof. vm_compute. reflexivity. Qed.

(** So does a Status frame with an empty payload, which decodes without
    error to a message that has no position. *)
Lemma receiver_panics_on_missing_position :
  proto.UnmarshalStatus [] =
    ({| protodef.Id := ""; protodef.CurrentPosition := None |}, false) /\
  receive [read_ok [x00; x24]]
  = ([InitDone; ConnClose; Termination; ListenerClose], Panicked).
Proof. vm_compute. split; reflexivity. Qed.

(** ** The event processor *)

Import task.

(** The effects of a stretch of the script on which the processor loops. *)
Lemma process_loop_app (pre rest : list ProcReady) (w : Worker) :
  Forall (fun r => loops_on r = true) pre ->
  process_loop (pre ++ rest) w
  = (fst (fst (process_loop pre w)) ++ fst (fst (process_loop rest w)),
     snd (fst (process_loop rest w)),
     snd (process_loop rest w)).
Proof.
  induction 1 as [| r pre Hr Hpre IH]; simpl.
  - destruct (process_loop rest w) as [[tr w'] o]. reflexivity.
  - destruct r as [status | | | ]; simpl in Hr; try discriminate.
    + destruct (safeStatus status) as [s |]; [| discriminate].
      rewrite IH. destruct (process_loop pre w) as [[tr w'] o]. reflexivity.
    + rewrite IH. destruct (process_loop pre w) as [[tr w'] o]. reflexivity.
Qed.

(** C7. Wherever the processor is in its loop, taking the mutual-termination
    signal makes it mark its slot TERMINATED and return: the slot afterwards
    has status TERMINATED and every other field as before.  Taking the
    force-exit signal makes it panic with the slot untouched.  Either way
    the deferred call sends the mutual-termination signal on, as the last
    effect, and nothing that follows in the script is looked at. *)
Theorem processor_shutdown (w : Worker) (pre rest : list ProcReady) :
  Forall (fun r => loops_on r = true) pre ->
  let done := fst (fst (process_loop pre w)) in
  ProcessIncoming w (pre ++ PTermination :: rest)
  = (ProcInitDone :: done ++ [ProcSendTermination],
     {| Port := Port w;
        status := TERMINATED;
        OwnerUserID := OwnerUserID w;
        ClientIP := ClientIP w;
        ClientPort := ClientPort w;
        SendUserRelatedDataToClient := SendUserRelatedDataToClient w |},
     Returned)
  /\
  ProcessIncoming w (pre ++ PForceExit :: rest)
  = (ProcInitDone :: done ++ [ProcSendTermination], w, Panicked).
Proof.
  intros Hpre. unfold ProcessIncoming.
  rewrite !(process_loop_app pre _ w Hpre). simpl.
  rewrite app_nil_r. split; reflexivity.
Qed.

(** A status event and a ping, then either signal. *)
Lemma processor_shutdown_witness :
  let w := sample_worker WORKING in
  let pre := [PStatus (Some (protoStatus
                {| game.Id := "ann";
                   game.CurrentPosition := {| game.X := 1; game.Y := 2 |} |}));
              PHealth] in
  ProcessIncoming w (pre ++ [PTermination; PHealth])
  = ([ProcInitDone;
      UpdateUserPosition {| game.Id := "ann";
                            game.CurrentPosition := {| game.X := 1; game.Y := 2 |} |};
      ProcHealthEcho; ProcSendTermination],
     sample_worker TERMINATED, Returned)
  /\
  ProcessIncoming w (pre ++ [PForceExit; PHealth])
  = ([ProcInitDone;
      UpdateUserPosition {| game.Id := "ann";
                            game.CurrentPosition := {| game.X := 1; game.Y := 2 |} |};
      ProcHealthEcho; ProcSendTermination],
     sample_worker WORKING, Panicked).
Proof.
  intros w pre.
  apply (processor_shutdown w pre [PHealth]).
  repeat (apply List.Forall_cons; [reflexivity |]). apply List.Forall_nil.
Defined.

(** ** Start-up and login *)

Import server.

(** C8. [NewServer] compares the pool's available-worker count, right after
    the workers are launched, with WORKER_COUNT.  When they differ it panics
    having done nothing but launch the workers: no health check is started
    and no handler registered.  When they agree it goes on to start the
    health check, build the game state and return a mux with the three
    routes. *)
Theorem startup_capacity_check
        (WORKER_COUNT MAP_SIZE : Z) (WorkerPool : Type)
        (GetWorkerPoolAfterLaunch : Z -> WorkerPool)
        (GetAvailableWorkerCount : WorkerPool -> Z) :
  let r := NewServer WORKER_COUNT MAP_SIZE WorkerPool
                     GetWorkerPoolAfterLaunch GetAvailableWorkerCount in
  let available := GetAvailableWorkerCount (GetWorkerPoolAfterLaunch WORKER_COUNT) in
  (available <> WORKER_COUNT ->
     r = ([LaunchWorkers WORKER_COUNT], StartupPanic)) /\
  (available = WORKER_COUNT ->
     snd r = Serving routes /\
     In (GoHealthCheckAndRevive 10) (fst r) /\
     forall pattern, In pattern routes -> In (HandleFunc pattern) (fst r)).
Proof.
  unfold NewServer. split; intros H.
  - apply Z.eqb_neq in H. rewrite H. reflexivity.
  - rewrite H, Z.eqb_refl. simpl. repeat split; auto.
    intros pattern Hp. repeat (destruct Hp as [<- | Hp]; [tauto |]). destruct Hp.
Qed.

(** A launch that leaves nine of ten workers available, and one that leaves
    all ten. *)
Lemma startup_capacity_check_witness :
  NewServer 10 100 (list Worker)
            (fun n => repeat (sample_worker IDLE) (Z.to_nat n - 1))
            (fun pool => Z.of_nat (length pool))
  = ([LaunchWorkers 10], StartupPanic)
  /\
  snd (NewServer 10 100 (list Worker)
                 (fun n => repeat (sample_worker IDLE) (Z.to_nat n))
                 (fun pool => Z.of_nat (length pool)))
  = Serving routes.
Proof.
  split.
  - apply (startup_capacity_check
             10 100 (list Worker)
             (fun n => repeat (sample_worker IDLE) (Z.to_nat n - 1))
             (fun pool => Z.of_nat (length pool))).
    vm_compute. discriminate.
  - apply (startup_capacity_check
             10 100 (list Worker)
             (fun n => repeat (sample_worker IDLE) (Z.to_nat n))
             (fun pool => Z.of_nat (length pool))).
    vm_compute. reflexivity.
Defined.

(** C10. The login handler does not look at what [SetClientInformation] and
    [StartSendUserRelatedDataToClient] return.  For every request that
    passes validation and every slot that [Pull] hands out, whatever its
    state, the response is 200 with the slot's port in decimal and the
    scoreboard maps the user to 0.  This includes the slots on which both
    calls fail (any state but PULLED_OUT and CLIENT_INFORMATION_RECEIVED):
    each call emits a force-exit signal and the slot is left as it was. *)
Theorem login_ignores_slot_errors
        (req : LoginRequest) (ip : IP) (port : Z) (w : Worker)
        (scoreboard : gmap string Z) :
  clientIP req = Some ip ->
  clientPort req = Some port ->
  userId req <> "" ->
  let r := get_worker_port req (Some w) scoreboard in
  response r = {| code := StatusOK; body := pretty (Port w) |} /\
  Scoreboard r !! userId req = Some 0 /\
  (status w <> PULLED_OUT ->
   status w <> CLIENT_INFORMATION_RECEIVED ->
     err (SetClientInformation w (userId req) (Some ip) port) = Some NotPulledOut /\
     err (StartSendUserRelatedDataToClient w) = Some NotClientInformationReceived /\
     signals r = [ForceExit; ForceExit] /\
     worker r = Some w).
Proof.
  intros Hip Hport Hid. unfold get_worker_port.
  rewrite Hip, Hport. apply String.eqb_neq in Hid. rewrite Hid.
  cbn [response Scoreboard signals worker].
  split; [| split].
  - f_equal. f_equal. unfold SetClientInformation.
    destruct (negb _); reflexivity.
  - apply lookup_insert_eq.
  - intros Hs Hc. unfold SetClientInformation, GetStatus.
    rewrite (proj2 (worker_status_eqb_neq _ _) Hs). cbn [negb slot emitted err].
    unfold StartSendUserRelatedDataToClient, GetStatus.
    rewrite (proj2 (worker_status_eqb_neq _ _) Hc). cbn [negb slot emitted err].
    repeat split.
Qed.

(** A login that is handed a TERMINATED slot. *)
Lemma login_ignores_slot_errors_witness :
  let req := {| userId := "ann"; clientPort := Some 4000;
                clientIP := Some [x7f; x00; x00; x01] |} in
  let r := get_worker_port req (Some (sample_worker TERMINATED)) ∅ in
  response r = {| code := 200; body := "9001" |} /\
  Scoreboard r !! "ann" = Some 0 /\
  signals r = [ForceExit; ForceExit] /\
  worker r = Some (sample_worker TERMINATED).
Proof.
  intros req r.
  destruct (login_ignores_slot_errors
              req [x7f; x00; x00; x01] 4000 (sample_worker TERMINATED) ∅
              eq_refl eq_refl ltac:(discriminate))
    as (Hresp & Hboard & Hfail).
  destruct Hfail as (_ & _ & Hsig & Hw); [discriminate | discriminate |].
  repeat split; assumption.
Defined.

(** On a slot that [Pull] hands out in the PULLED_OUT state, and that has a
    send routine, both calls succeed. *)
Lemma login_on_pulled_out_slot :
  let req := {| userId := "ann"; clientPort := Some 4000;
                clientIP := Some [x7f; x00; x00; x01] |} in
  let r := get_worker_port req (Some (sample_worker PULLED_OUT)) ∅ in
  response r = {| code := 200; body := "9001" |} /\
  option_map status (worker r) = Some WORKING /\
  option_map OwnerUserID (worker r) = Some "ann" /\
  Scoreboard r !! "ann" = Some 0.
Proof. repeat split. Qed.

(** Requests that fail validation, or find the pool empty, are rejected and
    leave the scoreboard alone. *)
Lemma login_rejections (req : LoginRequest) (scoreboard : gmap string Z) :
  (clientIP req = None \/ clientPort req = None \/ userId req = "" ->
   forall pulled,
     code (response (get_worker_port req pulled scoreboard)) = StatusBadRequest /\
     Scoreboard (get_worker_port req pulled scoreboard) = scoreboard) /\
  (clientIP req <> None -> clientPort req <> None -> userId req <> "" ->
     code (response (get_worker_port req None scoreboard)) = StatusConflict /\
     Scoreboard (get_worker_port req None scoreboard) = scoreboard).
Proof.
  unfold get_worker_port. split.
  - intros H pulled.
    destruct (clientIP req), (clientPort req), (String.eqb_spec (userId req) "");
      simpl; try (split; reflexivity).
    destruct H as [H | [H | H]]; congruence.
  - intros Hip Hport Hid.
    destruct (clientIP req), (clientPort req), (String.eqb_spec (userId req) "");
      simpl; try congruence. split; reflexivity.
Qed.

(** * Further properties *)

(** ** The receiver beyond well-formed streams *)

Section MoreReceiverFacts.

Variable UnmarshalStatus : list byte -> protodef.Status * bool.
Variable UnmarshalAttack : list byte -> protodef.Attack * bool.

Local Abbreviation decode_frame := (decode_frame UnmarshalStatus UnmarshalAttack).
Local Abbreviation decode_all := (decode_all UnmarshalStatus UnmarshalAttack).
Local Abbreviation receiver_loop := (receiver_loop UnmarshalStatus UnmarshalAttack).
Local Abbreviation ReceiveDataFromClient :=
  (ReceiveDataFromClient UnmarshalStatus UnmarshalAttack).

Local Abbreviation frame_step := (decode_all_frame UnmarshalStatus UnmarshalAttack).
Local Abbreviation tail_step := (decode_all_no_delim UnmarshalStatus UnmarshalAttack).

(** X1. Where a read ends does not matter to the inner loop, whatever the
    bytes are: running it on [a ++ b] gives the trace of running it on [a]
    followed by the trace of running it on what that left plus [b], and
    ends the same way; a panic on [a] is the same panic on [a ++ b]. *)
Theorem accumulation_is_cut_insensitive (a b : list byte) :
  match decode_all a with
  | (tr, Break kept) =>
      decode_all (a ++ b)
      = (tr ++ fst (decode_all (kept ++ b)), snd (decode_all (kept ++ b)))
  | (tr, LoopPanic) => decode_all (a ++ b) = (tr, LoopPanic)
  end.
Proof.
  induction a as [a IH] using (induction_ltof1 _ (@length byte)).
  unfold ltof in IH.
  destruct (delimiter_split BUFFER_DELIMITER a) as [Hn | (body & rest & -> & Hn)].
  - rewrite (tail_step a Hn). destruct (decode_all (a ++ b)). reflexivity.
  - assert (Hlen : (length rest < length (body ++ BUFFER_DELIMITER :: rest))%nat).
    { rewrite length_app. simpl. lia. }
    specialize (IH rest Hlen).
    rewrite <- app_assoc, <- app_comm_cons.
    rewrite (frame_step body rest Hn), (frame_step body (rest ++ b) Hn).
    destruct (decode_frame (body ++ [BUFFER_DELIMITER])) as [tr panicked].
    destruct panicked; [reflexivity |].
    destruct (decode_all rest) as [tr1 [kept |]].
    + rewrite IH. cbn [fst snd]. rewrite app_assoc. reflexivity.
    + rewrite IH. reflexivity.
Qed.

(** X2. When the inner loop breaks, what it leaves in the accumulation
    buffer is exactly the input behind its last delimiter: the leftover
    holds no delimiter, and the bytes taken off in front of it are none or
    end with a delimiter.  No byte of an unfinished frame is lost. *)
Theorem leftover_is_the_unfinished_frame
        (buf : list byte) (tr : list RecvEffect) (kept : list byte) :
  decode_all buf = (tr, Break kept) ->
  ~ In BUFFER_DELIMITER kept /\
  exists taken,
    buf = taken ++ kept /\
    (taken = [] \/ exists t, taken = t ++ [BUFFER_DELIMITER]).
Proof.
  revert tr kept.
  induction buf as [buf IH] using (induction_ltof1 _ (@length byte)).
  unfold ltof in IH. intros tr kept Hd.
  destruct (delimiter_split BUFFER_DELIMITER buf)
    as [Hn | (body & rest & -> & Hn)].
  - rewrite (tail_step buf Hn) in Hd. injection Hd as <- <-.
    split; [exact Hn |]. exists []. split; [reflexivity | left; reflexivity].
  - assert (Hlen : (length rest < length (body ++ BUFFER_DELIMITER :: rest))%nat).
    { rewrite length_app. simpl. lia. }
    rewrite (frame_step body rest Hn) in Hd.
    destruct (decode_frame (body ++ [BUFFER_DELIMITER])) as [tr0 panicked].
    destruct panicked; [discriminate |].
    destruct (decode_all rest) as [tr1 e] eqn:Er.
    injection Hd as <- ->.
    destruct (IH rest Hlen tr1 kept Er) as (Hleft & taken & -> & Htaken).
    split; [exact Hleft |].
    exists (body ++ BUFFER_DELIMITER :: taken). split.
    + rewrite <- app_assoc. reflexivity.
    + right. destruct Htaken as [-> | (t & ->)].
      * exists body. reflexivity.
      * exists (body ++ BUFFER_DELIMITER :: t).
        rewrite <- app_assoc. reflexivity.
Qed.

(** The inner loop sends termination signals and pushes events, nothing
    else. *)
Lemma decode_frame_effects (data : list byte) :
  Forall (fun e => is_release e = false /\ is_extension e = false)
         (fst (decode_frame data)).
Proof.
  unfold worker_pool.decode_frame. destruct data as [| tag data]; [constructor |].
  destruct (Byte.eqb tag PACKET_TYPE_STATUS).
  - destruct (payload (tag :: data)); [| constructor].
    destruct (UnmarshalStatus l) as [m failed].
    destruct (gameStatus m), failed; repeat constructor.
  - destruct (Byte.eqb tag PACKET_TYPE_ATTACK); [| constructor].
    destruct (payload (tag :: data)); [| constructor].
    destruct (UnmarshalAttack l) as [m failed].
    destruct (gameAttack m), failed; repeat constructor.
Qed.

Lemma decode_all_effects (buf : list byte) :
  Forall (fun e => is_release e = false /\ is_extension e = false)
         (fst (decode_all buf)).
Proof.
  induction buf as [buf IH] using (induction_ltof1 _ (@length byte)).
  unfold ltof in IH.
  destruct (delimiter_split BUFFER_DELIMITER buf)
    as [Hn | (body & rest & -> & Hn)].
  - rewrite (tail_step buf Hn). constructor.
  - assert (Hlen : (length rest < length (body ++ BUFFER_DELIMITER :: rest))%nat).
    { rewrite length_app. simpl. lia. }
    rewrite (frame_step body rest Hn).
    pose proof (decode_frame_effects (body ++ [BUFFER_DELIMITER])) as Hf.
    destruct (decode_frame (body ++ [BUFFER_DELIMITER])) as [tr panicked].
    destruct panicked; [exact Hf |].
    specialize (IH rest Hlen). destruct (decode_all rest) as [tr' e].
    cbn [fst] in *. apply Forall_app. split; assumption.
Qed.

Lemma deadline_extensions_app (tr1 tr2 : list RecvEffect) :
  deadline_extensions (tr1 ++ tr2)
  = (deadline_extensions tr1 + deadline_extensions tr2)%nat.
Proof.
  unfold deadline_extensions. rewrite List.filter_app, length_app. reflexivity.
Qed.

Lemma quiet_effects_no_extension (tr : list RecvEffect) :
  Forall (fun e => is_release e = false /\ is_extension e = false) tr ->
  deadline_extensions tr = 0%nat.
Proof.
  unfold deadline_extensions. induction 1 as [| e tr [_ He] _ IH]; [reflexivity |].
  simpl. rewrite He. exact IH.
Qed.

Lemma quiet_effects_no_release (tr : list RecvEffect) :
  Forall (fun e => is_release e = false /\ is_extension e = false) tr ->
  Forall (fun e => is_release e = false) tr.
Proof.
  intros H. eapply List.Forall_impl; [| exact H]. intros e [He _]. exact He.
Qed.

(** What one iteration sends on a read error and on a full buffer. *)
Lemma guards_effects (read_err : option ReadError) (size : nat) :
  Forall (fun e => is_release e = false /\ is_extension e = false)
         (match read_err with Some _ => [Termination] | None => [] end
          ++ (if (BUFFER_SIZE <=? size)%nat then [Termination] else [])).
Proof.
  destruct read_err, (BUFFER_SIZE <=? size)%nat; repeat constructor.
Qed.

Lemma loop_facts_stop (o : Outcome) (n : nat) :
  o <> Fatal -> o <> Running -> loop_facts [] o n.
Proof.
  intros Hf Hr. split; [exact Hf |]. split; [apply List.Forall_nil |].
  split; [unfold deadline_extensions; simpl; lia | contradiction].
Qed.

Lemma loop_facts_app (now tr : list RecvEffect) (o : Outcome) (k n : nat) :
  Forall (fun e => is_release e = false) now ->
  deadline_extensions now = k ->
  loop_facts tr o n ->
  loop_facts (now ++ tr) o (k + n).
Proof.
  intros Hnow Hk (Hf & Hr & Hle & Heq). split; [exact Hf |].
  split; [apply Forall_app; split; assumption |].
  rewrite deadline_extensions_app, Hk.
  split; [lia |]. intros Ho. rewrite (Heq Ho). reflexivity.
Qed.

Lemma loop_facts_panic (now : list RecvEffect) (n : nat) :
  Forall (fun e => is_release e = false /\ is_extension e = false) now ->
  loop_facts now Panicked n.
Proof.
  intros Hnow. split; [discriminate |].
  split; [apply quiet_effects_no_release; exact Hnow |].
  rewrite (quiet_effects_no_extension _ Hnow). split; [lia | discriminate].
Qed.

Lemma data_reads_cons (r : RecvReady) (script : list RecvReady) :
  data_reads (r :: script)
  = ((if brings_data r then 1 else 0) + data_reads script)%nat.
Proof.
  unfold data_reads. cbn [List.filter]. destruct (brings_data r); reflexivity.
Qed.

(** The outer loop: it never ends in [log.Fatal], never closes a socket,
    and extends the read deadline at most once per read that brings data,
    exactly once while it keeps running. *)
Lemma receiver_loop_facts (script : list RecvReady) :
  forall (buf : list byte) (cancelled : bool),
    loop_facts (fst (receiver_loop script buf cancelled))
               (snd (receiver_loop script buf cancelled))
               (data_reads script).
Proof.
  induction script as [| ev script IH]; intros buf cancelled.
  - split; [discriminate |]. split; [apply List.Forall_nil |].
    split; [reflexivity | reflexivity].
  - rewrite data_reads_cons. destruct ev as [ | | | rd].
    + apply loop_facts_stop; discriminate.
    + apply loop_facts_stop; discriminate.
    + specialize (IH buf cancelled). cbn [worker_pool.receiver_loop].
      destruct (receiver_loop script buf cancelled) as [tr o].
      apply (loop_facts_app [HealthEcho] tr o 0 _);
        [repeat constructor | reflexivity | exact IH].
    + cbn [worker_pool.receiver_loop]. destruct cancelled.
      { apply loop_facts_stop; discriminate. }
      unfold brings_data.
      destruct (rd_err rd) as [[|] |] eqn:Eerr; [apply IH | |].
      all: match goal with
           | |- context [?e ++ (if (BUFFER_SIZE <=? ?n)%nat then _ else _)] =>
               pose proof (guards_effects
                             (match e with [] => None
                                         | _ => Some OtherReadError end) n) as Hg;
               cbv iota in Hg
           end.
      all: match goal with
           | |- context [(0 <? ?n)%nat] => destruct (0 <? n)%nat
           end.
      all: try match goal with
           | |- context [worker_pool.decode_all _ _ ?q] =>
               pose proof (decode_all_effects q) as Hd;
               destruct (worker_pool.decode_all
                           UnmarshalStatus UnmarshalAttack q) as [tr [buf' |]];
               cbn [fst] in Hd
           end.
      all: try match goal with
           | |- context [worker_pool.receiver_loop _ _ ?s ?b ?c] =>
               specialize (IH b c);
               destruct (worker_pool.receiver_loop
                           UnmarshalStatus UnmarshalAttack s b c) as [tr' o]
           end.
      all: cbn [fst snd].
      all: try (apply loop_facts_panic; rewrite app_assoc;
                apply Forall_app; split; assumption).
      all: try (apply (loop_facts_app _ tr' o 1 _); [| | exact IH];
                [ rewrite !app_assoc; apply Forall_app; split;
                  [apply quiet_effects_no_release, Forall_app; split; assumption
                  | repeat constructor]
                | rewrite !app_assoc, deadline_extensions_app,
                    (quiet_effects_no_extension (_ ++ tr));
                  [reflexivity | apply Forall_app; split; assumption] ]).
      all: apply (loop_facts_app _ tr' o 0 _); [| | exact IH];
           [ apply quiet_effects_no_release; exact Hg
           | apply quiet_effects_no_extension; exact Hg ].
Qed.

(** X3. The receiver releases its sockets exactly when it ends.  When it
    returns or panics, the last three things it does are closing the
    connection, sending the termination signal and closing the listener,
    and it has closed nothing before; while it runs it has closed nothing;
    it ends in [log.Fatal] only when accepting or configuring the
    connection failed, before any of this. *)
Theorem receiver_releases_sockets_when_it_ends (env : RecvEnv) :
  match snd (ReceiveDataFromClient env) with
  | Returned | Panicked =>
      exists tr,
        fst (ReceiveDataFromClient env)
        = InitDone :: tr ++ [ConnClose; Termination; ListenerClose] /\
        Forall (fun e => is_release e = false) tr
  | Running => Forall (fun e => is_release e = false)
                      (fst (ReceiveDataFromClient env))
  | Fatal =>
      fst (ReceiveDataFromClient env) = [InitDone] /\
      accept_err env || deadline_err env || keepalive_err env = true
  end.
Proof.
  unfold worker_pool.ReceiveDataFromClient.
  destruct (accept_err env || deadline_err env || keepalive_err env);
    [split; reflexivity |].
  destruct (receiver_loop_facts (recv_script env) [] false) as (Hf & Hr & _).
  destruct (receiver_loop (recv_script env) [] false) as [tr o].
  cbn [fst snd] in *. unfold receiver_deferred. cbn [fst snd].
  destruct o; cbn [fst snd].
  - apply List.Forall_cons; [reflexivity | exact Hr].
  - exists tr. split; [reflexivity | exact Hr].
  - exists tr. split; [reflexivity | exact Hr].
  - contradiction.
Qed.

(** X4. The read deadline is extended once for every read that brings at
    least one byte and does not report [io.EOF], and for nothing else: never
    more often than there are such reads in the script, and exactly as often
    while the receiver is still running.  Empty reads, end-of-stream reads
    and liveness pings do not extend it. *)
Theorem read_deadline_extended_per_data_read (env : RecvEnv) :
  (deadline_extensions (fst (ReceiveDataFromClient env))
   <= data_reads (recv_script env))%nat /\
  (snd (ReceiveDataFromClient env) = Running ->
   deadline_extensions (fst (ReceiveDataFromClient env))
   = data_reads (recv_script env)).
Proof.
  unfold worker_pool.ReceiveDataFromClient.
  destruct (accept_err env || deadline_err env || keepalive_err env).
  - split; [unfold deadline_extensions; simpl; lia | discriminate].
  - destruct (receiver_loop_facts (recv_script env) [] false)
      as (_ & _ & Hle & Heq).
    destruct (receiver_loop (recv_script env) [] false) as [tr o].
    cbn [fst snd] in *. unfold receiver_deferred. cbn [fst snd].
    assert (Hcons : forall l, deadline_extensions (InitDone :: l)
                              = deadline_extensions l) by reflexivity.
    destruct o; cbn [fst snd]; rewrite Hcons;
      rewrite ?deadline_extensions_app;
      change (deadline_extensions [ConnClose; Termination; ListenerClose])
        with 0%nat;
      (split; [lia | try discriminate]).
    exact Heq.
Qed.

(** A prefix of the script on which the loop keeps running: the loop on the
    whole script goes through the trace of the prefix and then runs on the
    rest, from the state the prefix left. *)
Lemma receiver_loop_running_app (pre rest : list RecvReady) :
  forall (buf : list byte) (cancelled : bool),
    snd (receiver_loop pre buf cancelled) = Running ->
    exists buf' cancelled',
      receiver_loop (pre ++ rest) buf cancelled
      = (fst (receiver_loop pre buf cancelled)
           ++ fst (receiver_loop rest buf' cancelled'),
         snd (receiver_loop rest buf' cancelled')).
Proof.
  induction pre as [| ev pre IH]; intros buf cancelled Hrun.
  - exists buf, cancelled. cbn [app]. cbn [worker_pool.receiver_loop fst].
    destruct (receiver_loop rest buf cancelled). reflexivity.
  - destruct ev as [ | | | rd]; try discriminate.
    + cbn [app worker_pool.receiver_loop] in *.
      destruct (receiver_loop pre buf cancelled) as [tr o] eqn:E.
      cbn [snd] in Hrun. subst o.
      destruct (IH buf cancelled) as (buf' & c' & Heq);
        [rewrite E; reflexivity |].
      exists buf', c'. rewrite Heq, E. reflexivity.
    + cbn [app worker_pool.receiver_loop] in *.
      destruct cancelled; [discriminate |].
      destruct (rd_err rd) as [[|] |]; [apply IH; exact Hrun | |].
      all: match goal with
           | H : context [(0 <? ?n)%nat] |- _ => destruct (0 <? n)%nat
           end.
      all: try match goal with
           | H : context [worker_pool.decode_all _ _ ?q] |- _ =>
               destruct (worker_pool.decode_all
                           UnmarshalStatus UnmarshalAttack q) as [tr [buf1 |]];
               [| discriminate]
           end.
      all: match goal with
           | H : context [worker_pool.receiver_loop _ _ ?s ?b ?c] |- _ =>
               destruct (worker_pool.receiver_loop
                           UnmarshalStatus UnmarshalAttack s b c)
                 as [tr' o] eqn:E;
               cbn [snd] in H; subst o;
               destruct (IH b c) as (buf' & c' & Heq);
               [rewrite E; reflexivity |];
               exists buf', c'; rewrite Heq, E; cbn [fst snd];
               repeat (rewrite <- app_comm_cons || rewrite <- app_assoc);
               reflexivity
           end.
Qed.

(** X5. The receiver answers a cancelled context and a force-exit signal by
    returning without further I/O, whatever it has buffered: nothing is
    read, decoded or pushed any more, the rest of the script is not looked
    at, and the sockets are released. *)
Theorem receiver_returns_on_stop_signal
        (pre rest : list RecvReady) (stop : RecvReady) :
  snd (ReceiveDataFromClient (accepted pre)) = Running ->
  stops_receiver stop = true ->
  ReceiveDataFromClient (accepted (pre ++ stop :: rest))
  = (fst (ReceiveDataFromClient (accepted pre))
       ++ [ConnClose; Termination; ListenerClose],
     Returned).
Proof.
  unfold worker_pool.ReceiveDataFromClient, accepted.
  cbn [accept_err deadline_err keepalive_err recv_script orb].
  intros Hrun Hstop.
  destruct (receiver_loop pre [] false) as [tr o] eqn:E.
  assert (Ho : o = Running).
  { unfold receiver_deferred in Hrun. cbn [fst snd] in Hrun.
    destruct o; cbn [fst snd] in Hrun; congruence. }
  subst o.
  destruct (receiver_loop_running_app pre (stop :: rest) [] false)
    as (buf' & c' & Heq); [rewrite E; reflexivity |].
  rewrite Heq, E.
  assert (Hs : receiver_loop (stop :: rest) buf' c' = ([], Returned)).
  { destruct stop; try discriminate; reflexivity. }
  rewrite Hs. unfold receiver_deferred. cbn [fst snd].
  rewrite app_nil_r. reflexivity.
Qed.


End MoreReceiverFacts.

(** A Status frame followed by the first two bytes of the next one. *)
Lemma leftover_is_the_unfinished_frame_witness :
  let buf := wire [status_event "bob" 1 2] ++ [x00; x0a] in
  worker_pool.decode_all proto.UnmarshalStatus proto.UnmarshalAttack buf
  = ([Push (status_event "bob" 1 2)], Break [x00; x0a]) /\
  ~ In BUFFER_DELIMITER [x00; x0a] /\
  exists taken,
    buf = taken ++ [x00; x0a] /\
    (taken = [] \/ exists t, taken = t ++ [BUFFER_DELIMITER]).
Proof.
  intros buf.
  assert (H : worker_pool.decode_all proto.UnmarshalStatus proto.UnmarshalAttack buf
              = ([Push (status_event "bob" 1 2)], Break [x00; x0a]))
    by (vm_compute; reflexivity).
  split; [exact H |].
  exact (leftover_is_the_unfinished_frame
           proto.UnmarshalStatus proto.UnmarshalAttack buf _ _ H).
Defined.

(** A cancelled context after one Status frame and a ping. *)
Lemma receiver_returns_on_stop_signal_witness :
  receive ([read_ok (wire [status_event "bob" 1 2]); RHealth] ++ RDone :: [RHealth])
  = ([InitDone; Push (status_event "bob" 1 2); ExtendDeadline; HealthEcho;
      ConnClose; Termination; ListenerClose], Returned).
Proof.
  unfold receive.
  rewrite (receiver_returns_on_stop_signal
             proto.UnmarshalStatus proto.UnmarshalAttack
             [read_ok (wire [status_event "bob" 1 2]); RHealth] [RHealth] RDone);
    vm_compute; reflexivity.
Defined.

(** ** The sender beyond its budget *)


(** A prefix of the script on which the loop keeps running. *)
Lemma sender_loop_running_app (clientId : string) (pre rest : list SendReady) :
  forall ft,
    snd (sender_loop clientId pre ft) = Running ->
    exists ft',
      sender_loop clientId (pre ++ rest) ft
      = (fst (sender_loop clientId pre ft)
           ++ fst (sender_loop clientId rest ft'),
         snd (sender_loop clientId rest ft')).
Proof.
  induction pre as [| ev pre IH]; intros ft Hrun.
  - exists ft. cbn [app sender_loop fst].
    destruct (sender_loop clientId rest ft). reflexivity.
  - destruct ev as [ | | | t]; try discriminate.
    cbn [app sender_loop] in *.
    destruct (tick_userStatus t); [| apply IH; exact Hrun].
    destruct (tick_marshal_err t); [discriminate |].
    destruct (tick_write_err t).
    + destruct (ft - 1 <=? 0); [discriminate |].
      destruct (sender_loop clientId pre (ft - 1)) as [tr o] eqn:E.
      cbn [snd] in Hrun. subst o.
      destruct (IH (ft - 1)) as (ft' & Heq); [rewrite E; reflexivity |].
      exists ft'. rewrite Heq, E. reflexivity.
    + destruct (sender_loop clientId pre ft) as [tr o] eqn:E.
      cbn [snd] in Hrun. subst o.
      destruct (IH ft) as (ft' & Heq); [rewrite E; reflexivity |].
      exists ft'. rewrite Heq, E. reflexivity.
Qed.

(** X7. The sender answers a cancelled context, the stop signal and the
    force-exit signal by returning: the rest of the script is not looked
    at, the termination signal is the last thing it does, and the user is
    not removed from any collaborator, however many writes failed before. *)
Theorem sender_returns_on_stop_signal
        (clientId : string) (ip : IP) (port : Z)
        (pre rest : list SendReady) (stop : SendReady) :
  let run script :=
    CollectToSendUserRelatedDataToClient clientId (Some ip) port
      {| resolve_err := false; dial_err := false; send_script := script |} in
  snd (run pre) = Running ->
  stops_sender stop = true ->
  run (pre ++ stop :: rest)
  = (fst (run pre) ++ [SenderTermination], Returned) /\
  deregistrations (fst (run pre)) = [].
Proof.
  unfold CollectToSendUserRelatedDataToClient.
  cbn [resolve_err dial_err send_script]. intros Hrun Hstop.
  pose proof (sender_loop_budget clientId pre 100 eq_refl) as [Hn _].
  destruct (sender_loop clientId pre 100) as [tr o] eqn:E.
  assert (Ho : o = Running).
  { unfold sender_deferred in Hrun. cbn [fst snd] in Hrun.
    destruct o; cbn [fst snd] in Hrun; congruence. }
  subst o. cbn [fst snd] in Hn.
  destruct (sender_loop_running_app clientId pre (stop :: rest) 100)
    as (ft' & Heq); [rewrite E; reflexivity |].
  rewrite Heq, E.
  assert (Hs : sender_loop clientId (stop :: rest) ft' = ([], Returned)).
  { destruct stop; try discriminate; reflexivity. }
  rewrite Hs. unfold sender_deferred. cbn [fst snd]. rewrite app_nil_r.
  split; [reflexivity |]. apply Hn. discriminate.
Qed.

(** The stop signal after a successful and a failed write. *)
Lemma sender_returns_on_stop_signal_witness :
  let run script :=
    CollectToSendUserRelatedDataToClient "u1" (Some [x7f; x00; x00; x01]) 4000
      {| resolve_err := false; dial_err := false; send_script := script |} in
  let pre := [STick (sample_tick false); STick (sample_tick true)] in
  run (pre ++ SStop :: [STick (sample_tick true)])
  = (fst (run pre) ++ [SenderTermination], Returned) /\
  deregistrations (fst (run pre)) = [].
Proof.
  intros run pre.
  apply (sender_returns_on_stop_signal
           "u1" [x7f; x00; x00; x01] 4000 pre [STick (sample_tick true)] SStop);
    vm_compute; reflexivity.
Defined.


(** ** The event processor on whole scripts *)

(** The loop on inputs it loops on. *)
Lemma process_loop_inputs (w : Worker) (ins : list ProcInput) :
  process_loop (map arrives ins) w = (map answer ins, w, Running).
Proof.
  induction ins as [| i ins IH]; [reflexivity |].
  destruct i as [s |]; cbn [map arrives answer process_loop safeStatus].
  - rewrite gameStatus_protoStatus, IH. reflexivity.
  - rewrite IH. reflexivity.
Qed.

(** Every step the processor loops on is such an input. *)
Lemma loops_on_arrives (script : list ProcReady) :
  Forall (fun r => loops_on r = true) script ->
  exists ins, script = map arrives ins.
Proof.
  induction 1 as [| r script Hr _ (ins & ->)]; [exists []; reflexivity |].
  destruct r as [status | | |]; try discriminate Hr.
  - cbn [loops_on safeStatus] in Hr.
    destruct status as [[id [[x y] |]] |]; try discriminate Hr.
    exists (InStatus {| game.Id := id;
                        game.CurrentPosition := {| game.X := x; game.Y := y |} |}
              :: ins).
    reflexivity.
  - exists (InPing :: ins). reflexivity.
Qed.

(** How the loop ends, by the first step of the script it does not loop
    on. *)
Lemma process_loop_end (script : list ProcReady) (w : Worker) :
  (process_loop script w = (fst (fst (process_loop script w)), w, Running) /\
   Forall (fun r => loops_on r = true) script) \/
  (exists pre stop rest,
     script = pre ++ stop :: rest /\
     Forall (fun r => loops_on r = true) pre /\
     loops_on stop = false /\
     process_loop script w
     = (fst (fst (process_loop pre w)),
        match stop with
        | PTermination =>
            {| Port := Port w;
               status := TERMINATED;
               OwnerUserID := OwnerUserID w;
               ClientIP := ClientIP w;
               ClientPort := ClientPort w;
               SendUserRelatedDataToClient := SendUserRelatedDataToClient w |}
        | _ => w
        end,
        match stop with PTermination => Returned | _ => Panicked end)).
Proof.
  induction script as [| r script IH].
  - left. split; [reflexivity | apply List.Forall_nil].
  - destruct (loops_on r) eqn:Hr.
    + assert (Hstep : forall pre,
                process_loop (r :: pre) w
                = (fst (fst (process_loop [r] w)) ++ fst (fst (process_loop pre w)),
                   snd (fst (process_loop pre w)),
                   snd (process_loop pre w))).
      { intros pre.
        apply (process_loop_app [r] pre w).
        apply List.Forall_cons; [exact Hr | apply List.Forall_nil]. }
      destruct IH as [[Hrun Hall] | (pre & stop & rest & -> & Hpre & Hstop & Hend)].
      * left. split; [| apply List.Forall_cons; assumption].
        rewrite Hstep, Hrun. reflexivity.
      * right. exists (r :: pre), stop, rest.
        split; [reflexivity |].
        split; [apply List.Forall_cons; assumption |].
        split; [exact Hstop |].
        rewrite (Hstep (pre ++ stop :: rest)), (Hstep pre), Hend.
        cbn [fst snd]. reflexivity.
    + right. exists [], r, script.
      split; [reflexivity |]. split; [apply List.Forall_nil |].
      split; [exact Hr |].
      destruct r as [status | | |]; cbn [loops_on] in Hr;
        cbn [process_loop fst snd]; try discriminate Hr; try reflexivity.
      destruct (safeStatus status); [discriminate Hr | reflexivity].
Qed.

(** X9. The processor answers what it is sent in the order of arrival, one
    effect for each: a status is applied to the game map once, with the id
    and the coordinates it came with, and a ping is echoed once; the slot
    is not touched and the processor goes on.  Every step the processor
    loops on is such a status or ping. *)
Theorem processor_applies_events_in_order (w : Worker) :
  (forall ins : list ProcInput,
     ProcessIncoming w (map arrives ins)
     = (ProcInitDone :: map answer ins, w, Running)) /\
  (forall script : list ProcReady,
     Forall (fun r => loops_on r = true) script ->
     exists ins, script = map arrives ins).
Proof.
  split.
  - intros ins. unfold ProcessIncoming.
    rewrite process_loop_inputs. reflexivity.
  - exact loops_on_arrives.
Qed.

(** Two statuses of ann around a ping. *)
Lemma processor_applies_events_in_order_witness :
  let here := {| game.Id := "ann";
                 game.CurrentPosition := {| game.X := 1; game.Y := 2 |} |} in
  let there := {| game.Id := "ann";
                  game.CurrentPosition := {| game.X := 1; game.Y := 3 |} |} in
  ProcessIncoming (sample_worker WORKING)
                  [PStatus (Some (protoStatus here)); PHealth;
                   PStatus (Some (protoStatus there))]
  = ([ProcInitDone; UpdateUserPosition here; ProcHealthEcho;
      UpdateUserPosition there],
     sample_worker WORKING, Running).
Proof.
  intros here there.
  exact (proj1 (processor_applies_events_in_order (sample_worker WORKING))
               [InStatus here; InPing; InStatus there]).
Defined.

(** X10. The processor marks its slot TERMINATED on the mutual-termination
    signal and on nothing else.  It returns exactly when that signal comes
    after steps it loops on, and the slot then has status TERMINATED and
    every other field as before; when it panics, on a force-exit signal or
    on a status it cannot read, or still runs, the slot is untouched.
    Owner, client address and port are never changed, and it never ends in
    [log.Fatal]. *)
Theorem processor_marks_terminated_only_when_signalled
        (w : Worker) (script : list ProcReady) :
  let r := ProcessIncoming w script in
  (snd r = Returned ->
   snd (fst r)
   = {| Port := Port w;
        status := TERMINATED;
        OwnerUserID := OwnerUserID w;
        ClientIP := ClientIP w;
        ClientPort := ClientPort w;
        SendUserRelatedDataToClient := SendUserRelatedDataToClient w |}) /\
  (snd r <> Returned -> snd (fst r) = w) /\
  (snd r = Returned <->
   exists pre rest,
     script = pre ++ PTermination :: rest /\
     Forall (fun s => loops_on s = true) pre) /\
  session_of (snd (fst r)) = session_of w /\
  Port (snd (fst r)) = Port w /\
  snd r <> Fatal.
Proof.
  unfold ProcessIncoming.
  assert (Hback : forall pre rest,
             Forall (fun s => loops_on s = true) pre ->
             snd (process_loop (pre ++ PTermination :: rest) w) = Returned).
  { intros pre rest Hpre. rewrite (process_loop_app pre _ w Hpre). reflexivity. }
  destruct (process_loop_end script w)
    as [[Hrun Hall] | (pre & stop & rest & Hscript & Hpre & Hstop & Hend)].
  - rewrite Hrun. cbn [fst snd].
    split; [discriminate |]. split; [reflexivity |].
    split; [| split; [reflexivity | split; [reflexivity | discriminate]]].
    split; [discriminate |].
    intros (pre & rest & -> & Hpre).
    specialize (Hback pre rest Hpre). rewrite Hrun in Hback. discriminate Hback.
  - rewrite Hend.
    destruct stop as [status | | |]; cbn [fst snd]; try discriminate Hstop.
    + split; [discriminate |]. split; [reflexivity |].
      split; [| split; [reflexivity | split; [reflexivity | discriminate]]].
      split; [discriminate |].
      intros (pre' & rest' & Heq & Hpre').
      specialize (Hback pre' rest' Hpre'). rewrite <- Heq, Hend in Hback.
      discriminate Hback.
    + split; [discriminate |]. split; [reflexivity |].
      split; [| split; [reflexivity | split; [reflexivity | discriminate]]].
      split; [discriminate |].
      intros (pre' & rest' & Heq & Hpre').
      specialize (Hback pre' rest' Hpre'). rewrite <- Heq, Hend in Hback.
      discriminate Hback.
    + split; [reflexivity |]. split; [intros H; contradiction |].
      split; [| split; [reflexivity | split; [reflexivity | discriminate]]].
      split; [| reflexivity].
      intros _. exists pre, rest. split; assumption.
Qed.

(** A working slot on a ping and the termination signal, and on a ping and
    the force-exit signal. *)
Lemma processor_marks_terminated_only_when_signalled_witness :
  status (snd (fst (ProcessIncoming (sample_worker WORKING)
                                    [PHealth; PTermination; PHealth])))
  = TERMINATED /\
  snd (fst (ProcessIncoming (sample_worker WORKING) [PHealth; PForceExit]))
  = sample_worker WORKING.
Proof.
  destruct (processor_marks_terminated_only_when_signalled
              (sample_worker WORKING) [PHealth; PTermination; PHealth])
    as (Hret & _).
  destruct (processor_marks_terminated_only_when_signalled
              (sample_worker WORKING) [PHealth; PForceExit])
    as (_ & Hkeep & _).
  split.
  - rewrite Hret; reflexivity.
  - apply Hkeep. discriminate.
Defined.

(** X11. A status event the processor cannot read, a nil pointer or a
    status without a position, makes it panic wherever it is in its loop:
    the events before it have been applied, the ones after it never are,
    the slot keeps its status, and the deferred call sends the
    mutual-termination signal. *)
Theorem processor_panics_on_unreadable_status
        (w : Worker) (pre rest : list ProcReady) (status : option protodef.Status) :
  Forall (fun r => loops_on r = true) pre ->
  safeStatus status = None ->
  ProcessIncoming w (pre ++ PStatus status :: rest)
  = (ProcInitDone :: fst (fst (process_loop pre w)) ++ [ProcSendTermination],
     w, Panicked).
Proof.
  intros Hpre Hbad. unfold ProcessIncoming.
  rewrite (process_loop_app pre _ w Hpre). cbn [process_loop].
  rewrite Hbad. cbn [fst snd]. rewrite app_nil_r. reflexivity.
Qed.

(** A status without a position after one that has been applied. *)
Lemma processor_panics_on_unreadable_status_witness :
  let w := sample_worker WORKING in
  let ann := {| game.Id := "ann";
                game.CurrentPosition := {| game.X := 1; game.Y := 2 |} |} in
  let bad := {| protodef.Id := "bob"; protodef.CurrentPosition := None |} in
  ProcessIncoming w ([PStatus (Some (protoStatus ann)); PHealth]
                       ++ PStatus (Some bad) :: [PStatus (Some (protoStatus ann))])
  = ([ProcInitDone; UpdateUserPosition ann; ProcHealthEcho; ProcSendTermination],
     w, Panicked).
Proof.
  intros w ann bad.
  rewrite (processor_panics_on_unreadable_status
             w [PStatus (Some (protoStatus ann)); PHealth]
             [PStatus (Some (protoStatus ann))] (Some bad)).
  - reflexivity.
  - repeat (apply List.Forall_cons; [reflexivity |]). apply List.Forall_nil.
  - reflexivity.
Defined.

(** ** Sequences of slot method calls *)

Lemma send_starts_app (tr1 tr2 : list SlotEffect) :
  send_starts (tr1 ++ tr2) = (send_starts tr1 + send_starts tr2)%nat.
Proof. unfold send_starts. rewrite List.filter_app, length_app. reflexivity. Qed.

(** What one call does, by the state of the slot. *)
Lemma slot_call_cases (w : Worker) (c : SlotCall) :
  (slot (slot_call w c) = w /\
   emitted (slot_call w c) = [ForceExit] /\
   exists e, err (slot_call w c) = Some e) \/
  (exists userId clientIP clientPort,
     c = SetInfo userId clientIP clientPort /\
     status w = PULLED_OUT /\
     status (slot (slot_call w c)) = CLIENT_INFORMATION_RECEIVED /\
     session_of (slot (slot_call w c)) = (userId, clientIP, clientPort) /\
     emitted (slot_call w c) = [] /\ err (slot_call w c) = None) \/
  (exists routine,
     c = StartSend /\
     status w = CLIENT_INFORMATION_RECEIVED /\
     SendUserRelatedDataToClient w = Some routine /\
     slot (slot_call w c) = ChangeStatus w WORKING /\
     emitted (slot_call w c)
     = [GoSend (routine (OwnerUserID w) (ClientIP w) (ClientPort w))] /\
     err (slot_call w c) = None).
Proof.
  destruct c as [userId clientIP clientPort |]; cbn [slot_call].
  - unfold SetClientInformation, GetStatus.
    destruct (worker_status.eqb (status w) PULLED_OUT) eqn:E; cbn [negb].
    + apply worker_status_eqb_eq in E. right. left.
      exists userId, clientIP, clientPort. repeat split. exact E.
    + left. repeat split. eexists. reflexivity.
  - unfold StartSendUserRelatedDataToClient, GetStatus.
    destruct (worker_status.eqb (status w) CLIENT_INFORMATION_RECEIVED) eqn:E;
      cbn [negb].
    + apply worker_status_eqb_eq in E.
      destruct (SendUserRelatedDataToClient w) as [routine |] eqn:Er.
      * right. right. exists routine. repeat split. exact E.
      * left. repeat split. eexists. reflexivity.
    + left. repeat split. eexists. reflexivity.
Qed.

(** A slot outside the two states of a session being set up rejects every
    call. *)
Lemma slot_calls_rejected (cs : list SlotCall) :
  forall w,
    status w <> PULLED_OUT -> status w <> CLIENT_INFORMATION_RECEIVED ->
    fst (slot_calls w cs) = (w, repeat ForceExit (length cs)) /\
    Forall (fun e => e <> None) (snd (slot_calls w cs)).
Proof.
  induction cs as [| c cs IH]; intros w Hp Hc.
  - split; [reflexivity | apply List.Forall_nil].
  - cbn [slot_calls].
    destruct (slot_call_cases w c)
      as [(Hs & He & (e & Herr))
         | [(u & i & p & _ & Hst & _) | (r & _ & Hst & _)]];
      try contradiction.
    rewrite Hs, He, Herr. specialize (IH w Hp Hc).
    destruct (slot_calls w cs) as [[w' tr] errs]. cbn [fst snd] in *.
    destruct IH as [IH1 IH2]. injection IH1 as -> ->.
    split; [reflexivity |]. apply List.Forall_cons; [discriminate | exact IH2].
Qed.

(** Once client information is in, no call changes the session fields, and
    the send routine is started at most once. *)
Lemma slot_calls_after_binding (cs : list SlotCall) :
  forall w,
    status w <> PULLED_OUT ->
    session_of (fst (fst (slot_calls w cs))) = session_of w /\
    (send_starts (snd (fst (slot_calls w cs))) <= 1)%nat /\
    (send_starts (snd (fst (slot_calls w cs))) = 1%nat ->
     status (fst (fst (slot_calls w cs))) = WORKING).
Proof.
  induction cs as [| c cs IH]; intros w Hp.
  - cbn. repeat split; [lia | discriminate].
  - cbn [slot_calls].
    destruct (slot_call_cases w c)
      as [(Hs & He & (e & Herr))
         | [(u & i & p & _ & Hst & _) | (r & _ & Hst & _ & Hs & He & Herr)]];
      try contradiction.
    + rewrite Hs, He. specialize (IH w Hp).
      destruct (slot_calls w cs) as [[w' tr] errs]. cbn [fst snd] in *.
      rewrite send_starts_app. exact IH.
    + rewrite Hs, He.
      destruct (slot_calls_rejected cs (ChangeStatus w WORKING))
        as [Hrej _]; [discriminate | discriminate |].
      destruct (slot_calls (ChangeStatus w WORKING) cs) as [[w' tr] errs].
      cbn [fst snd] in *. injection Hrej as -> ->.
      rewrite send_starts_app.
      assert (Hz : send_starts (repeat ForceExit (length cs)) = 0%nat).
      { unfold send_starts. induction (length cs); [reflexivity | exact IHn]. }
      rewrite Hz. repeat split; cbn; lia.
Qed.

(** X12. No sequence of [SetClientInformation] and
    [StartSendUserRelatedDataToClient] calls on a slot starts the send
    routine twice, whatever the state the slot starts in and whatever the
    arguments; and when the routine has been started the slot is WORKING. *)
Theorem send_routine_started_at_most_once (w : Worker) (cs : list SlotCall) :
  (send_starts (snd (fst (slot_calls w cs))) <= 1)%nat /\
  (send_starts (snd (fst (slot_calls w cs))) = 1%nat ->
   status (fst (fst (slot_calls w cs))) = WORKING).
Proof.
  revert w. induction cs as [| c cs IH]; intros w.
  - cbn. split; [lia | discriminate].
  - cbn [slot_calls].
    destruct (slot_call_cases w c)
      as [(Hs & He & (e & Herr))
         | [(u & i & p & _ & _ & Hst & _ & He & _)
           | (r & _ & Hst & _ & Hs & He & Herr)]].
    + rewrite Hs, He. specialize (IH w).
      destruct (slot_calls w cs) as [[w' tr] errs]. cbn [fst snd] in *.
      rewrite send_starts_app. exact IH.
    + rewrite He.
      destruct (slot_calls_after_binding cs (slot (slot_call w c)))
        as (_ & H1 & H2); [rewrite Hst; discriminate |].
      destruct (slot_calls (slot (slot_call w c)) cs) as [[w' tr] errs].
      cbn [fst snd app] in *. split; assumption.
    + destruct (slot_calls_after_binding (c :: cs) w) as (_ & H1 & H2);
        [rewrite Hst; discriminate |].
      cbn [slot_calls] in H1, H2. split; assumption.
Qed.

(** X13. A slot is bound once.  On a PULLED_OUT slot the first
    [SetClientInformation] of a sequence of calls decides owner, client IP
    and client port, and no later call changes them; on a slot in any other
    state no call changes them at all. *)
Theorem session_is_bound_by_the_first_call_only (w : Worker) (cs : list SlotCall) :
  session_of (fst (fst (slot_calls w cs)))
  = if worker_status.eqb (status w) PULLED_OUT
    then match first_info cs with
         | Some info => info
         | None => session_of w
         end
    else session_of w.
Proof.
  destruct (worker_status.eqb (status w) PULLED_OUT) eqn:E.
  - apply worker_status_eqb_eq in E. revert w E.
    induction cs as [| c cs IH]; intros w E; [reflexivity |].
    cbn [slot_calls].
    destruct (slot_call_cases w c)
      as [(Hs & He & (e & Herr))
         | [(u & i & p & -> & _ & Hst & Hsess & _)
           | (r & _ & Hst & _)]].
    + assert (Hc : c = StartSend).
      { destruct c as [u i p |]; [| reflexivity].
        cbn [slot_call] in Herr. unfold SetClientInformation, GetStatus in Herr.
        rewrite E in Herr. discriminate. }
      subst c. cbn [first_info]. rewrite Hs. specialize (IH w E).
      destruct (slot_calls w cs) as [[w' tr] errs]. exact IH.
    + cbn [first_info]. rewrite <- Hsess.
      destruct (slot_calls_after_binding
                  cs (slot (slot_call w (SetInfo u i p)))) as (H & _);
        [rewrite Hst; discriminate |].
      destruct (slot_calls (slot (slot_call w (SetInfo u i p))) cs)
        as [[w' tr] errs]. exact H.
    + congruence.
  - apply worker_status_eqb_neq in E.
    apply (slot_calls_after_binding cs w E).
Qed.

(** X14. A slot that is IDLE, WORKING or TERMINATED rejects every call of
    the two methods: each call returns an error and emits one force-exit
    signal, and the slot stays exactly as it was. *)
Theorem calls_outside_a_session_are_rejected (w : Worker) (cs : list SlotCall) :
  status w <> PULLED_OUT ->
  status w <> CLIENT_INFORMATION_RECEIVED ->
  fst (slot_calls w cs) = (w, repeat ForceExit (length cs)) /\
  length (snd (slot_calls w cs)) = length cs /\
  Forall (fun e => e <> None) (snd (slot_calls w cs)).
Proof.
  intros Hp Hc. destruct (slot_calls_rejected cs w Hp Hc) as [H1 H2].
  split; [exact H1 |]. split; [| exact H2].
  clear. revert w. induction cs as [| c cs IH]; intros w; [reflexivity |].
  cbn [slot_calls]. specialize (IH (slot (slot_call w c))).
  destruct (slot_calls (slot (slot_call w c)) cs) as [[w' tr] errs].
  cbn [snd length] in *. rewrite IH. reflexivity.
Qed.

(** A second login attempt on a slot that is already WORKING. *)
Lemma calls_outside_a_session_are_rejected_witness :
  let w := sample_worker WORKING in
  let cs := [SetInfo "ann" (Some [x7f; x00; x00; x01]) 4000; StartSend] in
  fst (slot_calls w cs) = (w, [ForceExit; ForceExit]) /\
  length (snd (slot_calls w cs)) = 2%nat /\
  Forall (fun e => e <> None) (snd (slot_calls w cs)).
Proof.
  intros w cs.
  apply (calls_outside_a_session_are_rejected w cs); discriminate.
Defined.

(** ** Ticks without a user status *)

(** X15. Broadcast ticks that find no status for the user are invisible:
    the sender writes nothing for them and they cost no fault tolerance, so
    a session behaves exactly as if those ticks had not happened. *)
Theorem sender_skips_ticks_without_user_status
        (clientId : string) (clientIP : option IP) (clientPort : Z) (env : SendEnv) :
  CollectToSendUserRelatedDataToClient clientId clientIP clientPort env
  = CollectToSendUserRelatedDataToClient
      clientId clientIP clientPort
      {| resolve_err := resolve_err env;
         dial_err := dial_err env;
         send_script :=
           List.filter (fun r => negb (is_idle_tick r)) (send_script env) |}.
Proof.
  assert (H : forall script ft,
             sender_loop clientId script ft
             = sender_loop clientId
                           (List.filter (fun r => negb (is_idle_tick r)) script) ft).
  { induction script as [| r script IH]; intros ft; [reflexivity |].
    destruct r as [| | | t]; try reflexivity.
    cbn [List.filter is_idle_tick].
    destruct (tick_userStatus t) as [us |] eqn:Eus; cbn [negb].
    - cbn [sender_loop]. rewrite Eus.
      rewrite <- !IH. reflexivity.
    - cbn [sender_loop]. rewrite Eus. apply IH. }
  unfold CollectToSendUserRelatedDataToClient. cbn [resolve_err dial_err send_script].
  rewrite <- H. reflexivity.
Qed.

(** ** The login and disconnect handlers *)

(** X16. A login answers 200 exactly when the request is valid and the pool
    hands out a slot.  In every other case the handler answers 400 or 409,
    touches no slot, emits no signal and leaves the scoreboard as it was. *)
Theorem login_succeeds_or_changes_nothing
        (req : LoginRequest) (pulled : option Worker) (scoreboard : gmap string Z) :
  let r := get_worker_port req pulled scoreboard in
  (code (response r) = StatusOK <->
   clientIP req <> None /\ clientPort req <> None /\ userId req <> "" /\
   pulled <> None) /\
  (code (response r) <> StatusOK ->
   (code (response r) = StatusBadRequest \/ code (response r) = StatusConflict) /\
   worker r = None /\ signals r = [] /\ Scoreboard r = scoreboard).
Proof.
  unfold get_worker_port.
  destruct (clientIP req) as [ip |], (clientPort req) as [port |],
           (String.eqb_spec (userId req) ""), pulled as [w |];
    cbn [response worker signals Scoreboard code];
    (split; [split; [intros H; try discriminate H
                    | intros (H1 & H2 & H3 & H4); try congruence]
            | intros H; try (exfalso; apply H; reflexivity)]);
    try (repeat split; congruence);
    try (split; [right; reflexivity | repeat split]);
    try (split; [left; reflexivity | repeat split]).
Qed.

(** X17. A valid login that is handed a PULLED_OUT slot with a send routine
    starts the session of that user: the slot ends WORKING and bound to the
    user and the client address of the request, the send routine is started
    once, on those same values, no force-exit signal is emitted, the user
    enters the scoreboard with score 0 and no other score changes. *)
Theorem login_binds_a_fresh_slot
        (req : LoginRequest) (ip : IP) (port : Z) (w : Worker) (routine : SendRoutine)
        (scoreboard : gmap string Z) :
  clientIP req = Some ip ->
  clientPort req = Some port ->
  userId req <> "" ->
  status w = PULLED_OUT ->
  SendUserRelatedDataToClient w = Some routine ->
  let r := get_worker_port req (Some w) scoreboard in
  (exists w', worker r = Some w' /\
              status w' = WORKING /\
              session_of w' = (userId req, Some ip, port) /\
              Port w' = Port w) /\
  signals r = [GoSend (routine (userId req) (Some ip) port)] /\
  Scoreboard r !! userId req = Some 0 /\
  (forall other, other <> userId req -> Scoreboard r !! other = scoreboard !! other).
Proof.
  intros Hip Hport Hid Hst Hr. unfold get_worker_port.
  rewrite Hip, Hport. apply String.eqb_neq in Hid. rewrite Hid.
  cbn [worker signals Scoreboard].
  unfold SetClientInformation, GetStatus. rewrite Hst.
  cbn [worker_status.eqb negb slot emitted].
  unfold StartSendUserRelatedDataToClient, GetStatus, ChangeStatus.
  cbn [status worker_status.eqb negb SendUserRelatedDataToClient].
  rewrite Hr.
  cbn [slot emitted app Port status OwnerUserID ClientIP ClientPort].
  split; [| split; [reflexivity | split]].
  - eexists. split; [reflexivity |]. split; [reflexivity |].
    split; reflexivity.
  - apply lookup_insert_eq.
  - intros other Ho. apply lookup_insert_ne. congruence.
Qed.

(** The login of ann on a fresh slot, with bob on the scoreboard. *)
Lemma login_binds_a_fresh_slot_witness :
  let ip := [x7f; x00; x00; x01] in
  let req := {| userId := "ann"; clientPort := Some 4000; clientIP := Some ip |} in
  let board : gmap string Z := {["bob" := 3]} in
  let r := get_worker_port req (Some (sample_worker PULLED_OUT)) board in
  (exists w', worker r = Some w' /\
              status w' = WORKING /\
              session_of w' = ("ann", Some ip, 4000) /\
              Port w' = 9001) /\
  signals r = [GoSend (CollectToSendUserRelatedDataToClient "ann" (Some ip) 4000)] /\
  Scoreboard r !! "ann" = Some 0 /\
  (forall other, other <> "ann" -> Scoreboard r !! other = board !! other).
Proof.
  intros ip req board r.
  apply (login_binds_a_fresh_slot
           req ip 4000 (sample_worker PULLED_OUT)
           CollectToSendUserRelatedDataToClient board);
    (reflexivity || discriminate).
Defined.

(** X18. A login never rebinds a slot that is not PULLED_OUT.  When the
    pool hands out such a slot the handler still answers 200 and enters the
    user in the scoreboard, but owner, client IP and client port of the
    slot stay as they were, and a send routine that is started is started
    on the old owner and address, not on those of the request. *)
Theorem login_never_rebinds_a_bound_slot
        (req : LoginRequest) (ip : IP) (port : Z) (w : Worker)
        (scoreboard : gmap string Z) :
  clientIP req = Some ip ->
  clientPort req = Some port ->
  userId req <> "" ->
  status w <> PULLED_OUT ->
  let r := get_worker_port req (Some w) scoreboard in
  code (response r) = StatusOK /\
  Scoreboard r !! userId req = Some 0 /\
  (exists w', worker r = Some w' /\ session_of w' = session_of w) /\
  (forall run, In (GoSend run) (signals r) ->
     exists routine,
       SendUserRelatedDataToClient w = Some routine /\
       run = routine (OwnerUserID w) (ClientIP w) (ClientPort w)).
Proof.
  intros Hip Hport Hid Hst. unfold get_worker_port.
  rewrite Hip, Hport. apply String.eqb_neq in Hid. rewrite Hid.
  cbn [response code worker signals Scoreboard].
  unfold SetClientInformation, GetStatus.
  rewrite (proj2 (worker_status_eqb_neq _ _) Hst). cbn [negb slot emitted app].
  split; [reflexivity |]. split; [apply lookup_insert_eq |].
  unfold StartSendUserRelatedDataToClient, GetStatus.
  destruct (worker_status.eqb (status w) CLIENT_INFORMATION_RECEIVED);
    cbn [negb]; [destruct (SendUserRelatedDataToClient w) as [routine |] |];
    cbn [slot emitted]; (split; [eexists; split; reflexivity |]);
    intros run Hin; cbn [In] in Hin;
    repeat (destruct Hin as [Hin | Hin]; try discriminate Hin); try contradiction.
  injection Hin as <-. exists routine. split; reflexivity.
Qed.

(** The login of ann on a slot still bound to bob. *)
Lemma login_never_rebinds_a_bound_slot_witness :
  let ip := [x7f; x00; x00; x01] in
  let bobs := slot (SetClientInformation (sample_worker PULLED_OUT)
                                         "bob" (Some [x0a; x00; x00; x02]) 5000) in
  let req := {| userId := "ann"; clientPort := Some 4000; clientIP := Some ip |} in
  let r := get_worker_port req (Some bobs) ∅ in
  code (response r) = StatusOK /\
  Scoreboard r !! "ann" = Some 0 /\
  (exists w', worker r = Some w' /\
              session_of w' = ("bob", Some [x0a; x00; x00; x02], 5000)) /\
  (forall run, In (GoSend run) (signals r) ->
     exists routine,
       SendUserRelatedDataToClient bobs = Some routine /\
       run = routine "bob" (Some [x0a; x00; x00; x02]) 5000).
Proof.
  intros ip bobs req r.
  apply (login_never_rebinds_a_bound_slot req ip 4000 bobs ∅);
    (reflexivity || discriminate).
Defined.

(** X19. A disconnect touches the score of that user only.  When the pool
    knows no slot of the user the handler answers 404, puts nothing back and
    leaves the scoreboard as it was; when it does, the handler answers 200,
    hands exactly that slot, unchanged, to [Put], and the user has no score
    any more. *)
Theorem disconnect_clears_only_that_user
        (WorkerId : Type) (userId : string) (found : option (WorkerId * Worker))
        (scoreboard : gmap string Z) :
  let r := disconnect WorkerId userId found scoreboard in
  (forall other, other <> userId ->
     disconnect_Scoreboard _ r !! other = scoreboard !! other) /\
  put_back _ r = found /\
  match found with
  | None =>
      code (disconnect_response _ r) = StatusNotFound /\
      disconnect_Scoreboard _ r = scoreboard
  | Some _ =>
      code (disconnect_response _ r) = StatusOK /\
      disconnect_Scoreboard _ r !! userId = None
  end.
Proof.
  unfold disconnect. destruct found as [[workerId w] |];
    cbn [disconnect_Scoreboard put_back disconnect_response code].
  - split; [| split; [reflexivity | split; [reflexivity |]]].
    + intros other Ho. apply lookup_delete_ne. congruence.
    + apply lookup_delete_eq.
  - repeat split.
Qed.

(** X20. Login and disconnect undo each other on the scoreboard: after a
    successful login of a user and the disconnect of that user, whatever
    the slots involved, the scoreboard is the one from before the login
    without that user; when the user had no score before, it is the same
    scoreboard. *)
Theorem disconnect_after_login_restores_scoreboard
        (WorkerId : Type) (req : LoginRequest) (ip : IP) (port : Z)
        (w : Worker) (found : WorkerId * Worker) (scoreboard : gmap string Z) :
  clientIP req = Some ip ->
  clientPort req = Some port ->
  userId req <> "" ->
  let after :=
    disconnect_Scoreboard _
      (disconnect WorkerId (userId req) (Some found)
                  (Scoreboard (get_worker_port req (Some w) scoreboard))) in
  after = delete (userId req) scoreboard /\
  (scoreboard !! userId req = None -> after = scoreboard).
Proof.
  intros Hip Hport Hid. unfold get_worker_port.
  rewrite Hip, Hport. apply String.eqb_neq in Hid. rewrite Hid.
  cbn [Scoreboard]. unfold disconnect. destruct found as [workerId w0].
  cbn [disconnect_Scoreboard]. split.
  - apply delete_insert_eq.
  - intros Hnone. apply delete_insert_id. exact Hnone.
Qed.

(** ann logs in and disconnects while bob stays. *)
Lemma disconnect_after_login_restores_scoreboard_witness :
  let req := {| userId := "ann"; clientPort := Some 4000;
                clientIP := Some [x7f; x00; x00; x01] |} in
  let board : gmap string Z := {["bob" := 3]} in
  disconnect_Scoreboard _
    (disconnect nat "ann" (Some (7%nat, sample_worker WORKING))
                (Scoreboard (get_worker_port req (Some (sample_worker PULLED_OUT))
                                             board)))
  = board.
Proof.
  intros req board.
  apply (disconnect_after_login_restores_scoreboard
           nat req [x7f; x00; x00; x01] 4000 (sample_worker PULLED_OUT)
           (7%nat, sample_worker WORKING) board);
    try (reflexivity || discriminate).
Defined.
